(** * HFS api layer: [apiMiddleware] and [SendListReadable]

    A shallow embedding of [src/api.ts] (the dispatcher [apiMiddleware],
    the class [ApiError] and the incremental list [SendListReadable])
    together with the properties of its buffering protocol and of its
    error mapping.

    JavaScript values are modelled by the data type [value]; what the
    program obtains from its libraries (lodash's [_.matches], [_.debounce],
    [_.findIndex], [_.isEmpty], Node's [Readable.push], [Object.assign])
    is modelled next to the place where the program calls it.

    Three conventions hold throughout.
    - Time. lodash reads [Date.now()] inside [processBuffer]; a method of
      the model takes the reading as its argument [now].
    - Objects are data, not references. [Object.assign] is followed
      through the reference that the buffer entry found holds for its
      target: the model puts the record that this reference shows
      afterwards in that entry. An object which the caller has handed over
      more than once is, in the model, as many records, and what the other
      references to it show after a merge is not modelled. A general
      statement about a merge therefore speaks of the entry found, of the
      number of entries and of the calls of [this.push], and of nothing
      else; a run on the data of [Examples] is a run in which every object
      handed over is a new one.
    - Exceptions. A method that can throw returns a [completion]. *)

From Stdlib Require Import List String Ascii ZArith Bool Arith Lia.
From Stdlib Require Import DecimalString.
Import ListNotations.
Local Open Scope string_scope.
Set Warnings "-register-all".

(** ** JavaScript data *)

(** Plain data as the api exchanges it. Numbers are integers; an object is
    its list of own properties in the order [Object.entries] lists them
    (the array indices in ascending order, then the other keys, oldest
    first); an array has no holes and holds no property beside its
    elements. *)
Inductive value : Type :=
| VUndefined
| VNull
| VBool (b : bool)
| VNum (n : Z)
| VStr (s : string)
| VArr (items : list value)
| VObj (fields : list (string * value)).

(** What ends a call that does not return. [Unsupported] marks the one
    place where a call leaves the data modelled here: an assignment that
    gives an array a named property, a hole or another length. *)
Inductive exn : Type := TypeError | Unsupported.

Inductive completion (A : Type) : Type :=
| Normal (a : A)
| Throw (e : exn).
Arguments Normal {A} a.
Arguments Throw {A} e.

Definition bind {A B : Type} (c : completion A) (k : A -> completion B)
  : completion B :=
  match c with
  | Normal a => k a
  | Throw e => Throw e
  end.

Notation "x <- c ;; k" := (bind c (fun x => k))
  (at level 61, c at next level, right associativity).

Module Js.

(** Truthiness, as [if (x)] tests it. *)
Definition truthy (x : value) : bool :=
  match x with
  | VUndefined | VNull => false
  | VBool b => b
  | VNum n => negb (Z.eqb n 0)
  | VStr s => negb (String.eqb s "")
  | VArr _ | VObj _ => true
  end.

Definition nullish (x : value) : bool :=
  match x with
  | VUndefined | VNull => true
  | _ => false
  end.

(** The property key of an array index. *)
Definition index_key (i : nat) : string :=
  NilZero.string_of_uint (Nat.to_uint i).

Fixpoint lookup (k : string) (fields : list (string * value)) : option value :=
  match fields with
  | [] => None
  | (k', v) :: rest => if String.eqb k k' then Some v else lookup k rest
  end.

Definition char_at (s : string) (i : nat) : value :=
  match String.get i s with
  | Some c => VStr (String c EmptyString)
  | None => VUndefined
  end.

(** [x[i]] for a numeric literal [i]; reading a property of [undefined] or
    [null] throws. *)
Definition get_index (x : value) (i : nat) : completion value :=
  match x with
  | VUndefined | VNull => Throw TypeError
  | VBool _ | VNum _ => Normal VUndefined
  | VStr s => Normal (char_at s i)
  | VArr items => Normal (nth i items VUndefined)
  | VObj fields =>
      Normal (match lookup (index_key i) fields with
              | Some v => v
              | None => VUndefined
              end)
  end.

(** [x?.[i]] *)
Definition opt_index (x : value) (i : nat) : value :=
  match get_index x i with
  | Normal v => v
  | Throw _ => VUndefined
  end.

(** [x === 'lit'] *)
Definition is_str (x : value) (lit : string) : bool :=
  match x with
  | VStr s => String.eqb s lit
  | _ => false
  end.

(** The integer of an array index: a key is one when it is the canonical
    numeral of an integer below [2^32 - 1]. *)
Definition array_index (k : string) : option N :=
  match NilZero.uint_of_string k with
  | Some u =>
      let n := N.of_uint u in
      if String.eqb (NilZero.string_of_uint (N.to_uint n)) k
         && (n <? 4294967295)%N
      then Some n
      else None
  | None => None
  end.

Definition has_field (k : string) (fields : list (string * value)) : bool :=
  existsb (fun kv => String.eqb k (fst kv)) fields.

Fixpoint replace_field (k : string) (v : value) (fields : list (string * value))
  : list (string * value) :=
  match fields with
  | [] => []
  | (k', v') :: rest =>
      if String.eqb k k' then (k, v) :: rest
      else (k', v') :: replace_field k v rest
  end.

(** The place of a new array index [n]: after the array indices below
    it. *)
Fixpoint insert_index (n : N) (k : string) (v : value)
  (fields : list (string * value)) : list (string * value) :=
  match fields with
  | [] => [(k, v)]
  | (k', v') :: rest =>
      match array_index k' with
      | Some m =>
          if (m <? n)%N then (k', v') :: insert_index n k v rest
          else (k, v) :: fields
      | None => (k, v) :: fields
      end
  end.

(** Assignment [o[k] = v] on an object: an existing property keeps its
    place; a new one goes last, unless it is an array index, which goes
    among the array indices. *)
Definition set_field (k : string) (v : value) (fields : list (string * value))
  : list (string * value) :=
  if has_field k fields then replace_field k v fields
  else
    match array_index k with
    | Some n => insert_index n k v fields
    | None => (fields ++ [(k, v)])%list
    end.

Fixpoint replace_nth {A : Type} (i : nat) (a : A) (l : list A) : list A :=
  match l, i with
  | [], _ => []
  | _ :: rest, O => a :: rest
  | x :: rest, S j => x :: replace_nth j a rest
  end.

(** The container [x] as it shows after the object it holds at [x[i]]
    has been mutated and shows as [v]. *)
Definition set_index (x : value) (i : nat) (v : value) : value :=
  match x with
  | VArr items => VArr (replace_nth i v items)
  | VObj fields =>
      match lookup (index_key i) fields with
      | Some _ => VObj (set_field (index_key i) v fields)
      | None => x
      end
  | _ => x
  end.

(** Own enumerable string-keyed properties, in enumeration order. *)
Fixpoint indexed_from {A : Type} (i : nat) (l : list A) : list (string * A) :=
  match l with
  | [] => []
  | a :: rest => (index_key i, a) :: indexed_from (S i) rest
  end.

Fixpoint chars (s : string) : list value :=
  match s with
  | EmptyString => []
  | String c rest => VStr (String c EmptyString) :: chars rest
  end.

Definition own_entries (x : value) : list (string * value) :=
  match x with
  | VObj fields => fields
  | VArr items => indexed_from 0 items
  | VStr s => indexed_from 0 (chars s)
  | _ => []
  end.

(** A String wrapper owns its indices and [length], all read-only. *)
Definition string_owns (s : string) (k : string) : bool :=
  String.eqb k "length"
  || existsb (fun i => String.eqb k (index_key i)) (seq 0 (String.length s)).

(** Assignment [a[k] = v] on an array, where the result is an array of
    the model: [k] is an index inside the array, or the one just past its
    end. *)
Definition set_element (k : string) (v : value) (items : list value)
  : completion (list value) :=
  match array_index k with
  | Some n =>
      let i := N.to_nat n in
      if (i <? List.length items)%nat then Normal (replace_nth i v items)
      else if (i =? List.length items)%nat then Normal (items ++ [v])%list
      else Throw Unsupported
  | None => Throw Unsupported
  end.

(** [Object.assign(target, source)]: every own property of [source] is
    assigned to [target], in the order of [source]. The call mutates the
    object that [target] refers to; the result here is what the reference
    [target] shows afterwards (see the conventions at the head of the
    file). A primitive target is wrapped, and the wrapper is lost. *)
Definition Object_assign (target source : value) : completion value :=
  match target with
  | VUndefined | VNull => Throw TypeError
  | VBool _ | VNum _ => Normal target
  | VStr s =>
      if existsb (fun kv => string_owns s (fst kv)) (own_entries source)
      then Throw TypeError
      else Normal target
  | VArr items =>
      items' <- fold_left
                  (fun acc kv => a <- acc ;; set_element (fst kv) (snd kv) a)
                  (own_entries source) (Normal items) ;;
      Normal (VArr items')
  | VObj fields =>
      Normal (VObj (fold_left (fun acc kv => set_field (fst kv) (snd kv) acc)
                              (own_entries source) fields))
  end.

End Js.

(** ** lodash *)

Module Lodash.
Import Js.

(** [_.isEmpty] *)
Definition isEmpty (x : value) : bool :=
  match x with
  | VUndefined | VNull | VBool _ | VNum _ => true
  | VStr s => String.eqb s ""
  | VArr items => match items with [] => true | _ => false end
  | VObj fields => match fields with [] => true | _ => false end
  end.

(** [_.findIndex(array, predicate)]: the first index whose element passes,
    [-1] when none does; a predicate that throws ends the search. *)
Fixpoint findIndex_from (p : value -> completion bool) (l : list value) (i : Z)
  : completion Z :=
  match l with
  | [] => Normal (-1)%Z
  | x :: rest =>
      b <- p x ;;
      if b then Normal i else findIndex_from p rest (i + 1)%Z
  end.

Definition findIndex (l : list value) (p : value -> completion bool)
  : completion Z :=
  findIndex_from p l 0%Z.

(** [array[idx]] *)
Definition at_index (l : list value) (idx : Z) : value :=
  if (idx <? 0)%Z then VUndefined else nth (Z.to_nat idx) l VUndefined.

(** [array.splice(idx, 1)] for [idx >= 0] *)
Definition splice1 (l : list value) (idx : Z) : list value :=
  firstn (Z.to_nat idx) l ++ skipn (S (Z.to_nat idx)) l.

(** *** A matcher to run the model with

    The program is verified for an arbitrary matcher. To evaluate it on
    concrete records, [matches] follows [_.matches] on data: every own key
    of the source must be found in the object, with a strictly equal value
    when the source value is primitive and with a partially, deeply equal
    value otherwise (arrays are compared without regard to order). *)

Definition prim_eqb (a b : value) : bool :=
  match a, b with
  | VUndefined, VUndefined => true
  | VNull, VNull => true
  | VBool x, VBool y => Bool.eqb x y
  | VNum x, VNum y => Z.eqb x y
  | VStr x, VStr y => String.eqb x y
  | _, _ => false
  end.

Definition is_object (x : value) : bool :=
  match x with
  | VArr _ | VObj _ => true
  | _ => false
  end.

(** [key in Object(x)] and [x[key]] for data. *)
Definition get_prop (x : value) (k : string) : option value :=
  match x with
  | VObj fields => lookup k fields
  | VArr items =>
      if String.eqb k "length" then Some (VNum (Z.of_nat (List.length items)))
      else lookup k (indexed_from 0 items)
  | VStr s =>
      if String.eqb k "length" then Some (VNum (Z.of_nat (String.length s)))
      else lookup k (indexed_from 0 (chars s))
  | _ => None
  end.

(** First position of [others], not yet in [seen], that passes [p]. *)
Fixpoint some_unseen (p : value -> bool) (others : list value) (i : nat)
  (seen : list nat) : option nat :=
  match others with
  | [] => None
  | o :: rest =>
      if negb (existsb (Nat.eqb i) seen) && p o then Some i
      else some_unseen p rest (S i) seen
  end.

Fixpoint isEqual_partial (src oth : value) {struct src} : bool :=
  match src with
  | VObj fs =>
      match oth with
      | VObj fo =>
          (fix props (fs : list (string * value)) : bool :=
             match fs with
             | [] => true
             | (k, v) :: rest =>
                 match lookup k fo with
                 | Some o => isEqual_partial v o && props rest
                 | None => false
                 end
             end) fs
      | _ => false
      end
  | VArr xs =>
      match oth with
      | VArr os =>
          (List.length xs <=? List.length os)%nat
          && (fix elems (xs : list value) (seen : list nat) : bool :=
                match xs with
                | [] => true
                | x :: rest =>
                    match some_unseen (isEqual_partial x) os 0 seen with
                    | Some i => elems rest (i :: seen)
                    | None => false
                    end
                end) xs []
      | _ => false
      end
  | _ => prim_eqb src oth
  end.

Definition matches (source object : value) : bool :=
  if nullish object
  then match own_entries source with [] => true | _ => false end
  else forallb
         (fun kv =>
            match get_prop object (fst kv) with
            | Some o =>
                if is_object (snd kv) then isEqual_partial (snd kv) o
                else prim_eqb (snd kv) o
            | None => false
            end)
         (own_entries source).

End Lodash.

(** ** [SendListReadable] *)

Module SendList.
Import Js Lodash.

(** What [this.push] was called with: a batch of buffered operations, or
    [null]. *)
Inductive chunk : Type :=
| Batch (ops : list value)
| EOF.

(** The object: its two fields, the variables captured by the closure that
    [_.debounce] returned for [processBuffer], and the arguments of every
    call of [this.push] so far, oldest first. [timerId] and [lastArgs] only
    record whether lodash's variables of these names are set. *)
Record SendListReadable : Type := mkSendList {
  lastError : value;
  buffer : list value;
  wait : Z;
  timerId : bool;
  lastArgs : bool;
  lastCallTime : option Z;
  lastInvokeTime : Z;
  out : list chunk
}.

Definition set_lastError (v : value) (l : SendListReadable) : SendListReadable :=
  mkSendList v (buffer l) (wait l) (timerId l) (lastArgs l)
             (lastCallTime l) (lastInvokeTime l) (out l).

Definition set_buffer (b : list value) (l : SendListReadable) : SendListReadable :=
  mkSendList (lastError l) b (wait l) (timerId l) (lastArgs l)
             (lastCallTime l) (lastInvokeTime l) (out l).

Definition set_timerId (t : bool) (l : SendListReadable) : SendListReadable :=
  mkSendList (lastError l) (buffer l) (wait l) t (lastArgs l)
             (lastCallTime l) (lastInvokeTime l) (out l).

Definition set_lastArgs (a : bool) (l : SendListReadable) : SendListReadable :=
  mkSendList (lastError l) (buffer l) (wait l) (timerId l) a
             (lastCallTime l) (lastInvokeTime l) (out l).

Definition set_lastCallTime (t : option Z) (l : SendListReadable)
  : SendListReadable :=
  mkSendList (lastError l) (buffer l) (wait l) (timerId l) (lastArgs l)
             t (lastInvokeTime l) (out l).

Definition set_lastInvokeTime (t : Z) (l : SendListReadable) : SendListReadable :=
  mkSendList (lastError l) (buffer l) (wait l) (timerId l) (lastArgs l)
             (lastCallTime l) t (out l).

(** [this.push(chunk)] *)
Definition push (c : chunk) (l : SendListReadable) : SendListReadable :=
  mkSendList (lastError l) (buffer l) (wait l) (timerId l) (lastArgs l)
             (lastCallTime l) (lastInvokeTime l) (out l ++ [c]).

(** What Node's [Readable] hands to its consumer: the chunks pushed before
    the first [null]; a push after it is refused (the stream reports
    "stream.push() after EOF"). *)
Fixpoint delivered (cs : list chunk) : list (list value) :=
  match cs with
  | [] => []
  | EOF :: _ => []
  | Batch ops :: rest => ops :: delivered rest
  end.

Definition ended (cs : list chunk) : bool :=
  existsb (fun c => match c with EOF => true | Batch _ => false end) cs.

(** Every operation handed to [this.push], in order. *)
Fixpoint pushed_ops (cs : list chunk) : list value :=
  match cs with
  | [] => []
  | EOF :: rest => pushed_ops rest
  | Batch ops :: rest => ops ++ pushed_ops rest
  end.

(** *** [processBuffer]: [_.debounce(f, bufferTime, { maxWait: bufferTime })]

    The functions below are the inner functions of lodash's [debounce]
    (4.17), under the same names, with [leading = false], [trailing = true]
    and [maxing = true], [maxWait = wait] as the options of the program
    set them. [time] is what lodash reads from [Date.now()] at that point;
    the caller of the model supplies it. *)

(** The debounced function:
    [() => { this.push(this.buffer); this.buffer = [] }] *)
Definition func (l : SendListReadable) : SendListReadable :=
  set_buffer [] (push (Batch (buffer l)) l).

(** [lastArgs = lastThis = undefined; lastInvokeTime = time;
     result = func.apply(thisArg, args)] *)
Definition invokeFunc (time : Z) (l : SendListReadable) : SendListReadable :=
  func (set_lastInvokeTime time (set_lastArgs false l)).

(** [lastInvokeTime = time; timerId = setTimeout(timerExpired, wait);
     return leading ? invokeFunc(time) : result] *)
Definition leadingEdge (time : Z) (l : SendListReadable) : SendListReadable :=
  set_timerId true (set_lastInvokeTime time l).

(** [lastCallTime === undefined || timeSinceLastCall >= wait
     || timeSinceLastCall < 0 || (maxing && timeSinceLastInvoke >= maxWait)] *)
Definition shouldInvoke (time : Z) (l : SendListReadable) : bool :=
  match lastCallTime l with
  | None => true
  | Some lastCall =>
      (wait l <=? time - lastCall)%Z
      || (time - lastCall <? 0)%Z
      || (wait l <=? time - lastInvokeTime l)%Z
  end.

(** [timerId = undefined; if (trailing && lastArgs) return invokeFunc(time);
     lastArgs = lastThis = undefined] *)
Definition trailingEdge (time : Z) (l : SendListReadable) : SendListReadable :=
  let l := set_timerId false l in
  if lastArgs l then invokeFunc time l else set_lastArgs false l.

(** The timer's callback:
    [if (shouldInvoke(time)) return trailingEdge(time);
     timerId = setTimeout(timerExpired, remainingWait(time))].
    [flush] does not clear the timer it pre-empts, so the callback can run
    whatever [timerId] is. *)
Definition timerExpired (now : Z) (l : SendListReadable) : SendListReadable :=
  if shouldInvoke now l then trailingEdge now l else set_timerId true l.

(** [processBuffer.flush()]:
    [return timerId === undefined ? result : trailingEdge(now())] *)
Definition flush (now : Z) (l : SendListReadable) : SendListReadable :=
  if timerId l then trailingEdge now l else l.

(** [processBuffer()]:
    [lastArgs = arguments; lastThis = this; lastCallTime = time;
     if (isInvoking) {
       if (timerId === undefined) return leadingEdge(lastCallTime);
       if (maxing) { // Handle invocations in a tight loop.
         clearTimeout(timerId); timerId = setTimeout(timerExpired, wait);
         return invokeFunc(lastCallTime) } }
     if (timerId === undefined) timerId = setTimeout(timerExpired, wait)] *)
Definition debounced (now : Z) (l : SendListReadable) : SendListReadable :=
  let isInvoking := shouldInvoke now l in
  let l := set_lastCallTime (Some now) (set_lastArgs true l) in
  if isInvoking then
    if negb (timerId l) then leadingEdge now l
    else invokeFunc now (set_timerId true l)
  else set_timerId true l.

(** *** The methods *)

Section Methods.

(** [_.matches]: [matches search x] is [_.matches(search)(x)]. *)
Variable matches : value -> value -> bool.

(** [10_000 // hard limit] *)
Definition HARD_LIMIT : Z := 10000.

Definition _push (now : Z) (rec : value) (l : SendListReadable)
  : SendListReadable :=
  let l := set_buffer (buffer l ++ [rec]) l in
  if (HARD_LIMIT <? Z.of_nat (List.length (buffer l)))%Z
  then flush now l
  else debounced now l.

Definition add (now : Z) (rec : value) (l : SendListReadable)
  : SendListReadable :=
  _push now (VArr [VStr "add"; rec]) l.

(** [x => match(x[1])] *)
Definition test_entry (search : value) (x : value) : completion bool :=
  y <- get_index x 1 ;; Normal (matches search y).

Definition remove (now : Z) (search : value) (l : SendListReadable)
  : completion SendListReadable :=
  idx <- findIndex (buffer l) (test_entry search) ;;
  let found := at_index (buffer l) idx in
  let op := opt_index found 0 in
  if is_str op "remove" then Normal l
  else
    let l' := if truthy found then set_buffer (splice1 (buffer l) idx) l else l in
    if truthy found && is_str op "add" then Normal l'
    else Normal (_push now (VArr [VStr "remove"; search]) l').

(** [Object.assign(found[k], change)] mutates the object that the entry
    found holds at [k]; the buffer keeps its entries, and the entry found
    shows, at [k], that object with [change] assigned to it. *)
Definition update (now : Z) (search change : value) (l : SendListReadable)
  : completion SendListReadable :=
  if isEmpty change then Normal l
  else
    idx <- findIndex (buffer l) (test_entry search) ;;
    let found := at_index (buffer l) idx in
    let op := opt_index found 0 in
    if is_str op "remove" then Normal l
    else if is_str op "add" || is_str op "update" then
      let k := if is_str op "add" then 1%nat else 2%nat in
      target <- get_index found k ;;
      merged <- Object_assign target change ;;
      Normal (set_buffer
                (replace_nth (Z.to_nat idx) (set_index found k merged) (buffer l))
                l)
    else Normal (_push now (VArr [VStr "update"; search; change]) l).

Definition ready (now : Z) (l : SendListReadable) : SendListReadable :=
  _push now (VArr [VStr "ready"]) l.

Definition custom (now : Z) (data : value) (l : SendListReadable)
  : SendListReadable :=
  _push now data l.

Definition props (now : Z) (p : value) (l : SendListReadable)
  : SendListReadable :=
  _push now (VArr [VStr "props"; p]) l.

Definition close (now : Z) (l : SendListReadable) : SendListReadable :=
  push EOF (flush now l).

(** [now] is read by [_push], [now'] by [close]. *)
Definition error (now now' : Z) (msg : value) (close_ : bool) (p : value)
  (l : SendListReadable) : SendListReadable :=
  let l := _push now (VArr [VStr "error"; msg; p]) l in
  let l := set_lastError msg l in
  if close_ then close now' l else l.

Definition getLastError (l : SendListReadable) : value := lastError l.

(** The constructor. [clock i] is the time read by the [i]-th call it makes
    (the calls of [add], then the one of [ready]). [doAtStart] and [onEnd]
    run after it has returned; what they do to the object are calls like
    any other (see [call] below). *)
Definition fresh (bufferTime : option Z) : SendListReadable :=
  let bufferTime :=
    match bufferTime with
    | None | Some 0%Z => 200%Z
    | Some t => t
    end in
  mkSendList VUndefined [] bufferTime false false None 0%Z [].

Fixpoint add_each (clock : nat -> Z) (i : nat) (xs : list value)
  (l : SendListReadable) : SendListReadable :=
  match xs with
  | [] => l
  | x :: rest => add_each clock (S i) rest (add (clock i) x l)
  end.

Definition constructor (bufferTime : option Z) (addAtStart : option (list value))
  (clock : nat -> Z) : SendListReadable :=
  let this := fresh bufferTime in
  match addAtStart with
  | None => this
  | Some xs => ready (clock (List.length xs)) (add_each clock 0 xs this)
  end.

(** *** Runs *)

(** A call of a public method, or the timer of [processBuffer] firing. *)
Inductive call : Type :=
| Add (now : Z) (rec : value)
| Remove (now : Z) (search : value)
| Update (now : Z) (search change : value)
| Ready (now : Z)
| Custom (now : Z) (data : value)
| Props (now : Z) (p : value)
| Error (now now' : Z) (msg : value) (close_ : bool) (p : value)
| Close (now : Z)
| TimerExpired (now : Z).

Definition invoke (c : call) (l : SendListReadable)
  : completion SendListReadable :=
  match c with
  | Add now rec => Normal (add now rec l)
  | Remove now search => remove now search l
  | Update now search change => update now search change l
  | Ready now => Normal (ready now l)
  | Custom now data => Normal (custom now data l)
  | Props now p => Normal (props now p l)
  | Error now now' msg close_ p => Normal (error now now' msg close_ p l)
  | Close now => Normal (close now l)
  | TimerExpired now => Normal (timerExpired now l)
  end.

(** The states an object goes through. A call that throws a [TypeError]
    has not touched the object and adds no state; neither does, here, a
    call that ends with [Unsupported]: the states after it are outside the
    model. *)
Inductive reachable : SendListReadable -> Prop :=
| reach_new bufferTime addAtStart clock :
    reachable (constructor bufferTime addAtStart clock)
| reach_call c l l' :
    reachable l -> invoke c l = Normal l' -> reachable l'.

End Methods.

End SendList.

(** ** [apiMiddleware] *)

Module Api.
Import Js.

(** Modelled from the spec: the status codes exported by [./const], which
    is not among the sources: "unmatched paths return status 404",
    "they must match exactly or the response is status 401", "untyped
    thrown errors: status 400". *)
Definition HTTP_BAD_REQUEST : Z := 400.
Definition HTTP_UNAUTHORIZED : Z := 401.
Definition HTTP_NOT_FOUND : Z := 404.

(** An instance of [Error]: what [name] and [message] read on it. *)
Record ErrorObj : Type := mkError {
  name : string;
  message : string
}.

(** [String(e)] for an [Error]: [Error.prototype.toString]. *)
Definition Error_toString (e : ErrorObj) : string :=
  if String.eqb (name e) "" then message e
  else if String.eqb (message e) "" then name e
  else name e ++ ": " ++ message e.

(** A stream: one the handler made, or the one [asyncGeneratorToReadable]
    makes from a generator. *)
Inductive readable : Type :=
| Stream (id : nat)
| FromGenerator (gen : nat).

(** What a handler hands back, by the test of the middleware it answers:
    [isAsyncGenerator], [instanceof Readable], [instanceof ApiError],
    [instanceof Error], or none of them. *)
Inductive result : Type :=
| Data (v : value)
| AsyncGenerator (gen : nat)
| Readable (r : readable)
| ApiError (status : Z) (e : ErrorObj)
| Error (e : ErrorObj).

(** The end of a call of a handler, after [await]: a value, or a thrown
    (or rejected) one. *)
Inductive outcome : Type :=
| Returns (r : result)
| Throws (e : result).

(** The argument [message] of [new ApiError(status, message)]. *)
Inductive message_arg : Type :=
| OfString (s : string)
| OfError (e : ErrorObj)
| OfOther (v : value).

(** The part of Koa's [ctx] the middleware touches: the request ([path],
    the cookie [csrf], [params], [state.revProxyPath]) and what has been
    assigned to [state.dont_log], [body] and [status]; [piped] is the
    stream piped into [createSSE(ctx)]. *)
Record Context : Type := mkContext {
  path : string;
  cookie_csrf : option string;
  params : value;
  revProxyPath : value;
  dont_log : bool;
  body : option value;
  status : option Z;
  piped : option readable
}.

Definition set_dont_log (c : Context) : Context :=
  mkContext (path c) (cookie_csrf c) (params c) (revProxyPath c)
            true (body c) (status c) (piped c).

Definition set_body (b : value) (c : Context) : Context :=
  mkContext (path c) (cookie_csrf c) (params c) (revProxyPath c)
            (dont_log c) (Some b) (status c) (piped c).

Definition set_status (s : Z) (c : Context) : Context :=
  mkContext (path c) (cookie_csrf c) (params c) (revProxyPath c)
            (dont_log c) (body c) (Some s) (piped c).

Definition set_piped (r : readable) (c : Context) : Context :=
  mkContext (path c) (cookie_csrf c) (params c) (revProxyPath c)
            (dont_log c) (body c) (status c) (Some r).

(** A handler receives the parameters and [ctx], which it may write. *)
Definition ApiHandler : Type := value -> Context -> Context * outcome.

Definition ApiHandlers : Type := list (string * ApiHandler).

Fixpoint own (apis : ApiHandlers) (p : string) : option ApiHandler :=
  match apis with
  | [] => None
  | (k, f) :: rest => if String.eqb p k then Some f else own rest p
  end.

Section Middleware.

(** [JSON.stringify] *)
Variable JSON_stringify : value -> option string.

(** [removeStarting] of [./misc], which is not among the sources. *)
Variable removeStarting : value -> value -> completion value.

(** The [TypeError] the engine throws; its text is the engine's. *)
Variable engine_text : string.

Definition engine_TypeError : result := Error (mkError "TypeError" engine_text).

Definition new_ApiError (status : Z) (msg : message_arg) : result :=
  ApiError status
    (mkError "Error"
       match msg with
       | OfString s => s
       | OfError e => message e
       | OfOther v =>
           match JSON_stringify v with
           | Some s => s
           | None => ""
           end
       end).

(** [fixUri] applied to every element of an array *)
Fixpoint fix_each (rev : value) (items : list value) : completion (list value) :=
  match items with
  | [] => Normal []
  | x :: rest =>
      y <- removeStarting rev x ;;
      ys <- fix_each rev rest ;;
      Normal (y :: ys)
  end.

(** The body of the loop over [Object.entries(params)] for one entry:
    the value to be found at that key afterwards. *)
Definition fix_entry (rev : value) (k : string) (v : value) : completion value :=
  if String.prefix "uri" k then
    match v with
    | VStr _ => removeStarting rev v
    | VArr (VStr s :: rest) =>
        ys <- fix_each rev (VStr s :: rest) ;; Normal (VArr ys)
    | VObj fields =>
        match lookup "0" fields with
        | Some (VStr _) => Throw TypeError
        | _ => Normal v
        end
    | _ => Normal v
    end
  else Normal v.

Fixpoint fix_fields (rev : value) (fields : list (string * value))
  : completion (list (string * value)) :=
  match fields with
  | [] => Normal []
  | (k, v) :: rest =>
      v' <- fix_entry rev k v ;;
      rest' <- fix_fields rev rest ;;
      Normal ((k, v') :: rest')
  end.

(** The rewriting of [params] behind a reverse proxy. *)
Definition fix_params (rev : value) (p : value) : completion value :=
  match p with
  | VUndefined | VNull => Throw TypeError
  | VObj fields => fs <- fix_fields rev fields ;; Normal (VObj fs)
  | _ => Normal p
  end.

(** [params.csrf] *)
Definition params_csrf (p : value) : completion value :=
  match p with
  | VUndefined | VNull => Throw TypeError
  | VObj fields =>
      Normal (match lookup "csrf" fields with
              | Some v => v
              | None => VUndefined
              end)
  | _ => Normal VUndefined
  end.

(** [csrf && csrf !== params.csrf], for the cookie [csrf] (a string, or
    [undefined] when the request has none): [params.csrf] is read only when
    the cookie is truthy. *)
Definition csrf_mismatch (csrf : option string) (p : value) : completion bool :=
  match csrf with
  | None => Normal false
  | Some c =>
      if truthy (VStr c)
      then x <- params_csrf p ;; Normal (negb (is_str x c))
      else Normal false
  end.

(** [params] after the loop that runs when [ctx.state.revProxyPath] is
    set. *)
Definition rewritten (ctx : Context) : completion value :=
  if truthy (revProxyPath ctx) then fix_params (revProxyPath ctx) (params ctx)
  else Normal (params ctx).

Definition with_params (p : value) (c : Context) : Context :=
  mkContext (path c) (cookie_csrf c) p (revProxyPath c)
            (dont_log c) (body c) (status c) (piped c).

(** [params || {}] *)
Definition params_or_empty (p : value) : value :=
  if truthy p then p else VObj [].

(** The [try] block: the context after it, what [res] holds or what was
    thrown, and the parameters the handler was called with, if it was. *)
Definition try_block (apiFun : ApiHandler) (ctx : Context)
  : Context * outcome * option value :=
  match rewritten ctx with
  | Throw _ => (ctx, Throws engine_TypeError, None)
  | Normal p =>
      let ctx := with_params p ctx in
      match csrf_mismatch (cookie_csrf ctx) p with
      | Throw _ => (ctx, Throws engine_TypeError, None)
      | Normal true =>
          (ctx, Returns (new_ApiError HTTP_UNAUTHORIZED (OfString "csrf")), None)
      | Normal false =>
          let (ctx', o) := apiFun (params_or_empty p) ctx in
          (ctx', o, Some (params_or_empty p))
      end
  end.

(** [if (!logApi.get()) ctx.state.dont_log = true] *)
Definition logged (log_api : bool) (ctx : Context) : Context :=
  if negb log_api then set_dont_log ctx else ctx.

(** The middleware: the context when it returns, and the parameters the
    handler was called with, if it was. *)
Definition apiMiddleware (apis : ApiHandlers) (log_api : bool) (ctx : Context)
  : Context * option value :=
  let ctx := logged log_api ctx in
  match own apis (path ctx) with
  | None => (set_status HTTP_NOT_FOUND (set_body (VStr "invalid api") ctx), None)
  | Some apiFun =>
      let '(ctx, o, called) := try_block apiFun ctx in
      let res := match o with Returns r => r | Throws e => e end in
      match res with
      | AsyncGenerator g => (set_piped (FromGenerator g) ctx, called)
      | Readable r => (set_piped r ctx, called)
      | ApiError st e => (set_status st (set_body (VStr (message e)) ctx), called)
      | Error e =>
          let text :=
            if String.eqb (message e) "" then Error_toString e else message e in
          (set_status HTTP_BAD_REQUEST (set_body (VStr text) ctx), called)
      | Data v => (set_body v ctx, called)
      end
  end.

End Middleware.

End Api.

(** ** The sentences of the specification, over the model *)

Module Spec.
Import Js Lodash SendList.
Local Open Scope list_scope.

Definition add_entry (rec : value) : value := VArr [VStr "add"; rec].
Definition ready_entry : value := VArr [VStr "ready"].

(** Every operation enqueued and not coalesced, flushed or not, oldest
    first. *)
Definition queued (l : SendListReadable) : list value :=
  pushed_ops (out l) ++ buffer l.

(** The first batch the consumer receives. *)
Definition first_batch (cs : list chunk) : option (list value) :=
  hd_error (delivered cs).

(** The invariant of [processBuffer]: a flush is scheduled as long as
    something is buffered. *)
Definition scheduled (l : SendListReadable) : Prop :=
  buffer l <> [] -> timerId l = true /\ lastArgs l = true.

Definition bounded (l : SendListReadable) : Prop :=
  (Z.of_nat (List.length (buffer l)) <= HARD_LIMIT)%Z.

Definition inv (l : SendListReadable) : Prop := scheduled l /\ bounded l.

(** A step that takes buffered entries only to hand them to [this.push]. *)
Definition passes (l l' : SendListReadable) : Prop :=
  exists new,
    out l' = out l ++ new
    /\ forall x, In x (buffer l) -> In x (buffer l') \/ In x (pushed_ops new).

(** The two ways a flush can end: nothing done, or everything pushed. *)
Definition flushed_or_not (l l' : SendListReadable) : Prop :=
  (buffer l' = buffer l /\ out l' = out l)
  \/ (buffer l' = [] /\ out l' = out l ++ [Batch (buffer l)]).

Section Sentences.

Variable matches : value -> value -> bool.

(** No entry of [b] passes the test of [remove] and [update]. *)
Definition unmatched (search : value) (b : list value) : Prop :=
  Forall (fun e => test_entry matches search e = Normal false) b.








(** "no operations are accepted after termination": a call on a closed
    object leaves nothing buffered and delivers nothing. *)
Definition rejects_after_close (l : SendListReadable) (c : call) : Prop :=
  ended (out l) = true ->
  forall l',
    invoke matches c l = Normal l' ->
    buffer l' = [] /\ delivered (out l') = delivered (out l).

(** "created with addAtStart=[a,b] -> first flushed batch contains two Add
    entries followed by a Ready entry" *)
Definition first_batch_is_seed (bufferTime : option Z) (a b : value)
  (clock : nat -> Z) (now : Z) : Prop :=
  let l := constructor bufferTime (Some [a; b]) clock in
  queued l = [add_entry a; add_entry b; ready_entry]
  /\ first_batch (out (flush now l)) = Some [add_entry a; add_entry b; ready_entry].


(** What a call may do to the buffered entries: each is still buffered, or
    was handed to [this.push], or is the one entry the call coalesced. *)
Definition nothing_lost (l l' : SendListReadable) : Prop :=
  exists new coalesced,
    out l' = out l ++ new
    /\ (List.length coalesced <= 1)%nat
    /\ forall x, In x (buffer l) ->
         In x (buffer l') \/ In x (pushed_ops new) \/ In x coalesced.

End Sentences.


Import Api.

Section Dispatch.

Variable JSON_stringify : value -> option string.
Variable removeStarting : value -> value -> completion value.
Variable engine_text : string.

(** "if request carries a cookie named csrf and the handler parameters
    include a csrf field, they must match exactly or the response is
    status 401", the handler not being invoked; it is invoked when they
    match. *)
Definition csrf_checked (apis : ApiHandlers) (log_api : bool) (ctx : Context)
  (c : string) (fields : list (string * value)) (x : value) : Prop :=
  own apis (path ctx) <> None ->
  cookie_csrf ctx = Some c ->
  params ctx = VObj fields ->
  lookup "csrf" fields = Some x ->
  let r := apiMiddleware JSON_stringify removeStarting engine_text
                         apis log_api ctx in
  (x <> VStr c -> status (fst r) = Some HTTP_UNAUTHORIZED /\ snd r = None)
  /\ (x = VStr c -> snd r <> None).

(** "all handler-thrown errors are caught": a typed error gives its status
    and its message, "any other thrown/rejected error" is "mapped to 400"
    with a text as the body. *)
Definition thrown_is_mapped (apis : ApiHandlers) (log_api : bool)
  (ctx : Context) (f : ApiHandler) (p : value) (ctx' : Context) (e : result)
  : Prop :=
  own apis (path ctx) = Some f ->
  rewritten removeStarting ctx = Normal p ->
  csrf_mismatch (cookie_csrf ctx) p = Normal false ->
  f (params_or_empty p) (with_params p (logged log_api ctx)) = (ctx', Throws e) ->
  let r := fst (apiMiddleware JSON_stringify removeStarting engine_text
                              apis log_api ctx) in
  match e with
  | ApiError st err => status r = Some st /\ body r = Some (VStr (message err))
  | _ =>
      status r = Some HTTP_BAD_REQUEST /\ exists text, body r = Some (VStr text)
  end.

End Dispatch.

End Spec.

(** ** Data to run the model on *)

Module Examples.
Import Js Lodash SendList Api.

Definition id1 : value := VObj [("id", VNum 1)].
Definition id2 : value := VObj [("id", VNum 2)].
Definition id1_a : value := VObj [("id", VNum 1); ("n", VStr "a")].
Definition n_z : list (string * value) := [("n", VStr "z")].
Definition kx : value := VObj [("k", VStr "x")].

(** [new SendListReadable()] *)
Definition empty : SendListReadable := constructor None None (fun _ => 0%Z).


(** Modelled from the spec: [removeStarting] of [./misc], which is not
    among the sources: "any parameter key starting with uri has its
    value(s) stripped of a configured proxy-path prefix". *)
Definition strip (start s : value) : completion value :=
  match start, s with
  | VStr a, VStr b =>
      Normal (VStr (if String.prefix a b
                    then substring (String.length a)
                                   (String.length b - String.length a) b
                    else b))
  | _, _ => Throw TypeError
  end.

(** A [JSON.stringify] that is never asked. *)
Definition no_json (v : value) : option string := None.

(** A request for [/api/get], not behind a reverse proxy. *)
Definition request (cookie : option string) (p : value) : Context :=
  mkContext "/api/get" cookie p VUndefined false None None None.

Definition ok : value := VObj [("status", VStr "ok")].

(** One handler, at [/api/get], that ends with [o]. *)
Definition apis (o : outcome) : ApiHandlers :=
  [("/api/get", fun _ ctx => (ctx, o))].

(** The middleware over [apis (Returns (Data ok))]. *)
Definition serve (ctx : Context) : Context * option value :=
  apiMiddleware no_json strip "" (apis (Returns (Data ok))) true ctx.

End Examples.

(** ** Sequences of calls *)

Module Calls.
Import Js Lodash SendList Spec.
Local Open Scope list_scope.

Definition props_entry (p : value) : value := VArr [VStr "props"; p].
Definition error_entry (msg p : value) : value := VArr [VStr "error"; msg; p].

(** What a call hands to [_push], for the calls where that does not depend
    on the buffer; [remove] and [update] have none. *)
Definition enqueued (c : call) : option (list value) :=
  match c with
  | Add _ rec => Some [add_entry rec]
  | Ready _ => Some [ready_entry]
  | Custom _ data => Some [data]
  | Props _ p => Some [props_entry p]
  | Error _ _ msg _ p => Some [error_entry msg p]
  | Close _ => Some []
  | TimerExpired _ => Some []
  | Remove _ _ => None
  | Update _ _ _ => None
  end.

Fixpoint enqueued_all (cs : list call) : list value :=
  match cs with
  | [] => []
  | c :: rest =>
      match enqueued c with
      | Some es => es ++ enqueued_all rest
      | None => enqueued_all rest
      end
  end.

(** What [getLastError()] returns after a call, from what it returned
    before. *)
Definition last_error_after (c : call) (before : value) : value :=
  match c with
  | Error _ _ msg _ _ => msg
  | _ => before
  end.

Section Run.

Variable matches : value -> value -> bool.


(** Calls made one after the other, up to the first that throws. *)
Fixpoint run (cs : list call) (l : SendListReadable)
  : completion SendListReadable :=
  match cs with
  | [] => Normal l
  | c :: rest => l' <- invoke matches c l ;; run rest l'
  end.

End Run.

End Calls.

(** ** Handlers derived from a handler *)

Module Handlers.
Import Api.

(** The handler that does what [f] does and throws what [f] returns. *)
Definition thrown_instead (f : ApiHandler) : ApiHandler :=
  fun arg ctx =>
    let (ctx', o) := f arg ctx in
    (ctx', match o with
           | Returns r => Throws r
           | Throws e => Throws e
           end).

(** The text of the body for an [Error] that is no [ApiError]:
    [res.message || String(res)]. *)
Definition error_text (e : ErrorObj) : string :=
  if String.eqb (message e) "" then Error_toString e else message e.

(** A request for [/api/get] behind a reverse proxy at [/hfs]. *)
Definition proxied (cookie : option string) (p : value) : Context :=
  mkContext "/api/get" cookie p (VStr "/hfs") false None None None.

(** Parameters with two to rewrite. *)
Definition uri_params : list (string * value) :=
  [("uri", VStr "/hfs/a"); ("csrf", VStr "t");
   ("uris", VArr [VStr "/hfs/b"; VStr "/c"])].

End Handlers.

(** * Properties of [SendListReadable] *)

Import Js Lodash SendList Spec Examples.
Local Open Scope list_scope.

(** ** Lists and searches *)


Lemma findIndex_from_first (p : value -> completion bool)
  (pre : list value) (e : value) (post : list value) (i : Z) :
  Forall (fun x => p x = Normal false) pre ->
  p e = Normal true ->
  findIndex_from p (pre ++ e :: post) i = Normal (i + Z.of_nat (List.length pre))%Z.
Proof.
  intros H He. revert i. induction H as [|x l Hx _ IH]; intros i; simpl.
  - rewrite He. simpl. f_equal. lia.
  - rewrite Hx. simpl. rewrite IH. f_equal. lia.
Qed.

Lemma findIndex_first (p : value -> completion bool)
  (pre : list value) (e : value) (post : list value) :
  Forall (fun x => p x = Normal false) pre ->
  p e = Normal true ->
  findIndex (pre ++ e :: post) p = Normal (Z.of_nat (List.length pre)).
Proof.
  intros H He. unfold findIndex. rewrite (findIndex_from_first p pre e post 0 H He).
  reflexivity.
Qed.

Lemma at_index_middle (pre : list value) (e : value) (post : list value) :
  at_index (pre ++ e :: post) (Z.of_nat (List.length pre)) = e.
Proof.
  unfold at_index.
  destruct (Z.ltb_spec (Z.of_nat (List.length pre)) 0) as [H|_]; [lia|].
  rewrite Nat2Z.id, app_nth2, Nat.sub_diag by lia. reflexivity.
Qed.

Lemma splice1_middle (pre : list value) (e : value) (post : list value) :
  splice1 (pre ++ e :: post) (Z.of_nat (List.length pre)) = pre ++ post.
Proof.
  unfold splice1. rewrite Nat2Z.id.
  induction pre as [|x pre IH]; simpl; [reflexivity|].
  f_equal. exact IH.
Qed.


(** ** [_push] *)

Lemma _push_cases (now : Z) (rec : value) (l : SendListReadable) :
  (buffer (_push now rec l) = buffer l ++ [rec] /\ out (_push now rec l) = out l)
  \/ (buffer (_push now rec l) = []
      /\ out (_push now rec l) = out l ++ [Batch (buffer l ++ [rec])]).
Proof.
  unfold _push, flush, debounced, trailingEdge, leadingEdge, invokeFunc, func.
  destruct l as [le b w t a lc li o]. simpl.
  destruct (HARD_LIMIT <? _)%Z; simpl.
  - destruct t; simpl; [destruct a; simpl|]; auto.
  - destruct (shouldInvoke now _); simpl; [destruct t; simpl|]; auto.
Qed.


Lemma pushed_ops_app (cs cs' : list chunk) :
  pushed_ops (cs ++ cs') = pushed_ops cs ++ pushed_ops cs'.
Proof.
  induction cs as [|[ops|] cs IH]; simpl; [reflexivity | |exact IH].
  now rewrite IH, app_assoc.
Qed.

Lemma _push_queued (now : Z) (rec : value) (l : SendListReadable) :
  queued (_push now rec l) = queued l ++ [rec].
Proof.
  unfold queued.
  destruct (_push_cases now rec l) as [[B O]|[B O]]; rewrite B, O.
  - now rewrite app_assoc.
  - rewrite pushed_ops_app. simpl. now rewrite !app_nil_r, app_assoc.
Qed.

(** ** What [remove] and [update] do with the first match *)

Section Coalescing.

Variable matches : value -> value -> bool.

Lemma test_add_entry (s x : value) :
  test_entry matches s (add_entry x) = Normal (matches s x).
Proof. reflexivity. Qed.



(** [remove] when the first entry that passes the test is an Add entry. *)
Lemma remove_first_add (l : SendListReadable) (pre : list value) (x : value)
  (post : list value) (now : Z) (s : value) :
  buffer l = pre ++ add_entry x :: post ->
  unmatched matches s pre ->
  matches s x = true ->
  remove matches now s l = Normal (set_buffer (pre ++ post) l).
Proof.
  intros B U M. unfold remove. rewrite B.
  rewrite (findIndex_first _ pre (add_entry x) post U)
    by (now rewrite test_add_entry, M).
  simpl. rewrite at_index_middle, splice1_middle. reflexivity.
Qed.







End Coalescing.

(** ** [Object.assign] on records *)








(** ** Steps that only push *)

Lemma passes_refl (l : SendListReadable) : passes l l.
Proof. exists []. rewrite app_nil_r. auto. Qed.

Lemma passes_trans (l1 l2 l3 : SendListReadable) :
  passes l1 l2 -> passes l2 l3 -> passes l1 l3.
Proof.
  intros (n1 & O1 & K1) (n2 & O2 & K2). exists (n1 ++ n2). split.
  - now rewrite O2, O1, app_assoc.
  - intros x Hx. rewrite pushed_ops_app, in_app_iff.
    destruct (K1 x Hx) as [H|H]; [|tauto].
    destruct (K2 x H); tauto.
Qed.

Lemma flushed_or_not_passes (l l' : SendListReadable) :
  flushed_or_not l l' -> passes l l'.
Proof.
  intros [[B O]|[B O]].
  - exists []. rewrite O, B, app_nil_r. auto.
  - exists [Batch (buffer l)]. rewrite O. split; [reflexivity|].
    intros x Hx. right. simpl. now rewrite app_nil_r.
Qed.

Lemma trailingEdge_cases (time : Z) (l : SendListReadable) :
  flushed_or_not l (trailingEdge time l).
Proof.
  unfold flushed_or_not, trailingEdge, invokeFunc, func.
  destruct l as [le b w t a lc li o]. simpl. destruct a; simpl; auto.
Qed.

Lemma flush_cases (now : Z) (l : SendListReadable) :
  flushed_or_not l (flush now l).
Proof.
  unfold flush. destruct (timerId l); [apply trailingEdge_cases|].
  left. auto.
Qed.

Lemma timerExpired_cases (now : Z) (l : SendListReadable) :
  flushed_or_not l (timerExpired now l).
Proof.
  unfold timerExpired. destruct (shouldInvoke now l); [apply trailingEdge_cases|].
  left. destruct l; auto.
Qed.

Lemma _push_passes (now : Z) (rec : value) (l : SendListReadable) :
  passes l (_push now rec l).
Proof.
  destruct (_push_cases now rec l) as [[B O]|[B O]].
  - exists []. rewrite O, B, app_nil_r. split; [reflexivity|].
    intros x Hx. left. apply in_or_app. now left.
  - exists [Batch (buffer l ++ [rec])]. rewrite O. split; [reflexivity|].
    intros x Hx. right. simpl. rewrite app_nil_r. apply in_or_app. now left.
Qed.

Lemma close_passes (now : Z) (l : SendListReadable) : passes l (close now l).
Proof.
  unfold close.
  apply passes_trans with (flush now l);
    [apply flushed_or_not_passes, flush_cases|].
  exists [EOF]. split; [reflexivity|]. auto.
Qed.

Lemma error_passes (now now' : Z) (msg : value) (c : bool) (p : value)
  (l : SendListReadable) : passes l (error now now' msg c p l).
Proof.
  unfold error.
  assert (H : passes l (set_lastError msg (_push now (VArr [VStr "error"; msg; p]) l))).
  { destruct (_push_passes now (VArr [VStr "error"; msg; p]) l) as (n & O & K).
    exists n. split; [exact O | exact K]. }
  destruct c; [|exact H].
  eapply passes_trans; [exact H | apply close_passes].
Qed.

(** ** The invariant of the buffer *)

Lemma inv_fresh (bufferTime : option Z) : inv (fresh bufferTime).
Proof.
  split; [intros H; now contradiction H|].
  unfold bounded, HARD_LIMIT. simpl. lia.
Qed.

Lemma inv_emptied (l : SendListReadable) : buffer l = [] -> inv l.
Proof.
  intros E. split; [intros H; now rewrite E in H|].
  unfold bounded, HARD_LIMIT. rewrite E. simpl. lia.
Qed.

Lemma inv_trailingEdge (time : Z) (l : SendListReadable) :
  inv l -> inv (trailingEdge time l).
Proof.
  intros [S _]. apply inv_emptied.
  unfold trailingEdge, invokeFunc, func, scheduled in *.
  destruct l as [le b w t a lc li o]. simpl in *.
  destruct a; simpl; [reflexivity|].
  destruct b; [reflexivity|].
  destruct S as [_ S]; [discriminate | discriminate S].
Qed.

Lemma inv_flush (now : Z) (l : SendListReadable) : inv l -> inv (flush now l).
Proof.
  intros H. unfold flush. destruct (timerId l); [now apply inv_trailingEdge | exact H].
Qed.

Lemma inv_timerExpired (now : Z) (l : SendListReadable) :
  inv l -> inv (timerExpired now l).
Proof.
  intros H. unfold timerExpired.
  destruct (shouldInvoke now l); [now apply inv_trailingEdge|].
  destruct H as [S B]. destruct l as [le b w t a lc li o].
  split; [|exact B]. intros N. destruct (S N) as [_ A]. simpl in *. auto.
Qed.

Lemma inv_debounced (now : Z) (l : SendListReadable) :
  bounded l -> inv (debounced now l).
Proof.
  intros B. unfold debounced, leadingEdge, invokeFunc, func.
  destruct l as [le b w t a lc li o]. unfold bounded in B. simpl in *.
  destruct (shouldInvoke now _); simpl; [destruct t; simpl|];
    try (apply inv_emptied; reflexivity);
    (split; [intros _; simpl; auto | exact B]).
Qed.

Lemma inv__push (now : Z) (rec : value) (l : SendListReadable) :
  inv l -> inv (_push now rec l).
Proof.
  intros [S B]. unfold _push.
  destruct (Z.ltb_spec HARD_LIMIT
              (Z.of_nat (List.length (buffer (set_buffer (buffer l ++ [rec]) l)))))
    as [H|H].
  - assert (N : buffer l <> []).
    { intros E. rewrite E in H. unfold HARD_LIMIT in H. simpl in H. lia. }
    destruct (S N) as [T A].
    apply inv_emptied.
    unfold flush, trailingEdge, invokeFunc, func.
    destruct l as [le b w t a lc li o]. simpl in *. subst. reflexivity.
  - apply inv_debounced. exact H.
Qed.

Lemma inv_set_buffer (b : list value) (l : SendListReadable) :
  inv l -> (List.length b <= List.length (buffer l))%nat -> inv (set_buffer b l).
Proof.
  intros [S B] L. unfold scheduled, bounded in *.
  destruct l as [le b0 w t a lc li o]. simpl in *. split.
  - unfold scheduled. simpl. intros N. apply S. intros E. subst.
    destruct b; [congruence | simpl in L; lia].
  - unfold bounded. simpl. lia.
Qed.

Lemma splice1_length (l : list value) (idx : Z) :
  (List.length (splice1 l idx) <= List.length l)%nat.
Proof.
  unfold splice1. rewrite length_app, length_firstn, length_skipn. lia.
Qed.

Lemma replace_nth_length {A : Type} (i : nat) (a : A) (l : list A) :
  List.length (replace_nth i a l) = List.length l.
Proof.
  revert i. induction l as [|x l IH]; intros [|i]; simpl; auto.
Qed.

Lemma inv_push_chunk (c : chunk) (l : SendListReadable) : inv l -> inv (push c l).
Proof. destruct l. exact (fun H => H). Qed.

Lemma inv_set_lastError (v : value) (l : SendListReadable) :
  inv l -> inv (set_lastError v l).
Proof. destruct l. exact (fun H => H). Qed.

Lemma inv_close (now : Z) (l : SendListReadable) : inv l -> inv (close now l).
Proof. intros H. apply inv_push_chunk, inv_flush, H. Qed.

Lemma inv_add_each (clock : nat -> Z) (xs : list value) (i : nat)
  (l : SendListReadable) : inv l -> inv (add_each clock i xs l).
Proof.
  revert i l. induction xs as [|x xs IH]; intros i l H; simpl; [exact H|].
  apply IH, inv__push, H.
Qed.

Lemma inv_constructor (bufferTime : option Z) (addAtStart : option (list value))
  (clock : nat -> Z) : inv (constructor bufferTime addAtStart clock).
Proof.
  unfold constructor. destruct addAtStart as [xs|]; [|apply inv_fresh].
  apply inv__push, inv_add_each, inv_fresh.
Qed.

Section Invariant.

Variable matches : value -> value -> bool.

Lemma inv_remove (now : Z) (s : value) (l l' : SendListReadable) :
  inv l -> remove matches now s l = Normal l' -> inv l'.
Proof.
  intros H. unfold remove.
  destruct (findIndex (buffer l) (test_entry matches s)) as [idx|e];
    simpl; [|discriminate].
  destruct (is_str _ "remove"); [intros E; now inversion E; subst|].
  assert (H1 : inv (if truthy (at_index (buffer l) idx)
                    then set_buffer (splice1 (buffer l) idx) l else l)).
  { destruct (truthy _); [|exact H]. apply inv_set_buffer; [exact H|].
    apply splice1_length. }
  destruct (truthy _ && is_str _ "add"); intros E; inversion E; subst;
    [exact H1 | now apply inv__push].
Qed.

Lemma inv_update (now : Z) (s c : value) (l l' : SendListReadable) :
  inv l -> update matches now s c l = Normal l' -> inv l'.
Proof.
  intros H. unfold update.
  destruct (isEmpty c); [intros E; now inversion E; subst|].
  destruct (findIndex (buffer l) (test_entry matches s)) as [idx|e];
    simpl; [|discriminate].
  destruct (is_str _ "remove"); [intros E; now inversion E; subst|].
  destruct (is_str _ "add" || is_str _ "update").
  - destruct (get_index _ _) as [target|e]; simpl; [|discriminate].
    destruct (Object_assign target c) as [merged|e]; simpl; [|discriminate].
    intros E; inversion E; subst.
    apply inv_set_buffer; [exact H|]. now rewrite replace_nth_length.
  - intros E; inversion E; subst. now apply inv__push.
Qed.

Lemma inv_invoke (c : call) (l l' : SendListReadable) :
  inv l -> invoke matches c l = Normal l' -> inv l'.
Proof.
  intros H. destruct c; simpl; intros E;
    try (inversion E; subst; clear E).
  - now apply inv__push.
  - eapply inv_remove; eauto.
  - eapply inv_update; eauto.
  - now apply inv__push.
  - now apply inv__push.
  - now apply inv__push.
  - unfold error. destruct close_.
    + now apply inv_close, inv_set_lastError, inv__push.
    + now apply inv_set_lastError, inv__push.
  - now apply inv_close.
  - now apply inv_timerExpired.
Qed.

Lemma reachable_inv (l : SendListReadable) : reachable matches l -> inv l.
Proof.
  induction 1 as [bt xs clock | c l l' _ IH E].
  - apply inv_constructor.
  - exact (inv_invoke c l l' IH E).
Qed.

End Invariant.

(** ** Nothing leaves the buffer unseen *)

Lemma splice1_keeps (l : list value) (n : nat) (x : value) :
  In x l -> In x (firstn n l ++ skipn (S n) l) \/ x = nth n l VUndefined.
Proof.
  revert n. induction l as [|y l IH]; intros n H; [contradiction|].
  destruct n as [|n]; simpl in *.
  - destruct H as [->|H]; auto.
  - destruct H as [->|H]; [auto|].
    destruct (IH n H) as [H'|H']; auto.
Qed.

Lemma replace_nth_keeps (l : list value) (n : nat) (a x : value) :
  In x l -> In x (replace_nth n a l) \/ x = nth n l VUndefined.
Proof.
  revert n. induction l as [|y l IH]; intros n H; [contradiction|].
  destruct n as [|n]; simpl in *.
  - destruct H as [->|H]; auto.
  - destruct H as [->|H]; [auto|].
    destruct (IH n H) as [H'|H']; auto.
Qed.

Lemma passes_nothing_lost (l l' : SendListReadable) :
  passes l l' -> nothing_lost l l'.
Proof.
  intros (new & O & K). exists new, []. split; [exact O|]. split; [simpl; lia|].
  intros x Hx. destruct (K x Hx); auto.
Qed.

Lemma coalesce_then_pass (l l1 l' : SendListReadable) (e : value) :
  out l1 = out l ->
  (forall x, In x (buffer l) -> In x (buffer l1) \/ x = e) ->
  passes l1 l' ->
  nothing_lost l l'.
Proof.
  intros O K (new & O' & K'). exists new, [e].
  split; [now rewrite O', O|]. split; [simpl; lia|].
  intros x Hx. destruct (K x Hx) as [H| ->]; [|simpl; auto].
  destruct (K' x H); auto.
Qed.

Section NothingLost.

Variable matches : value -> value -> bool.

Lemma nothing_lost_remove (now : Z) (s : value) (l l' : SendListReadable) :
  remove matches now s l = Normal l' -> nothing_lost l l'.
Proof.
  unfold remove.
  destruct (findIndex (buffer l) (test_entry matches s)) as [idx|e];
    simpl; [|discriminate].
  destruct (is_str _ "remove");
    [intros E; inversion E; subst; apply passes_nothing_lost, passes_refl|].
  set (l1 := if truthy (at_index (buffer l) idx)
             then set_buffer (splice1 (buffer l) idx) l else l).
  assert (O : out l1 = out l).
  { unfold l1. destruct (truthy _); [destruct l|]; reflexivity. }
  assert (K : forall x, In x (buffer l) ->
                In x (buffer l1) \/ x = nth (Z.to_nat idx) (buffer l) VUndefined).
  { unfold l1. destruct (truthy _); [|auto].
    intros x Hx. destruct l as [le b w t a lc li o]. simpl in *.
    apply splice1_keeps, Hx. }
  destruct (truthy _ && is_str _ "add"); intros E; inversion E; subst.
  - eapply coalesce_then_pass; [exact O | exact K | apply passes_refl].
  - eapply coalesce_then_pass; [exact O | exact K | apply _push_passes].
Qed.

Lemma nothing_lost_update (now : Z) (s c : value) (l l' : SendListReadable) :
  update matches now s c l = Normal l' -> nothing_lost l l'.
Proof.
  unfold update.
  destruct (isEmpty c);
    [intros E; inversion E; subst; apply passes_nothing_lost, passes_refl|].
  destruct (findIndex (buffer l) (test_entry matches s)) as [idx|e];
    simpl; [|discriminate].
  destruct (is_str _ "remove");
    [intros E; inversion E; subst; apply passes_nothing_lost, passes_refl|].
  destruct (is_str _ "add" || is_str _ "update").
  - destruct (get_index _ _) as [target|e]; simpl; [|discriminate].
    destruct (Object_assign target c) as [merged|e]; simpl; [|discriminate].
    intros E. injection E as E.
    apply coalesce_then_pass
      with (l1 := l') (e := nth (Z.to_nat idx) (buffer l) VUndefined);
      [| |apply passes_refl]; subst l'.
    + destruct l; reflexivity.
    + intros x Hx. destruct l as [le b w t a lc li o]. simpl in *.
      apply replace_nth_keeps, Hx.
  - intros E; inversion E; subst. apply passes_nothing_lost, _push_passes.
Qed.

Lemma nothing_lost_invoke (c : call) (l l' : SendListReadable) :
  invoke matches c l = Normal l' -> nothing_lost l l'.
Proof.
  destruct c; simpl; intros E;
    try (eapply nothing_lost_remove; exact E);
    try (eapply nothing_lost_update; exact E);
    injection E as <-; apply passes_nothing_lost.
  - apply _push_passes.
  - apply _push_passes.
  - apply _push_passes.
  - apply _push_passes.
  - apply error_passes.
  - apply close_passes.
  - apply flushed_or_not_passes, timerExpired_cases.
Qed.

End NothingLost.

(** ** The coalescing rules *)



Section Claims.

Variable matches : value -> value -> bool.






End Claims.











(** ** Every entry accounted for *)

Import Calls.

Lemma queued_flushed_or_not (l l' : SendListReadable) :
  flushed_or_not l l' -> queued l' = queued l.
Proof.
  unfold queued. intros [[B O]|[B O]]; rewrite B, O; [reflexivity|].
  rewrite pushed_ops_app. simpl. now rewrite !app_nil_r.
Qed.

Lemma queued_close (now : Z) (l : SendListReadable) :
  queued (close now l) = queued l.
Proof.
  rewrite <- (queued_flushed_or_not l (flush now l) (flush_cases now l)).
  unfold close, queued. destruct (flush now l) as [le b w t a lc li o]. simpl.
  rewrite pushed_ops_app. simpl. now rewrite app_nil_r.
Qed.

Lemma queued_error (now now' : Z) (msg : value) (c : bool) (p : value)
  (l : SendListReadable) :
  queued (error now now' msg c p l) = queued l ++ [error_entry msg p].
Proof.
  unfold error.
  assert (Q : queued (set_lastError msg (_push now (VArr [VStr "error"; msg; p]) l))
              = queued l ++ [error_entry msg p]).
  { rewrite <- (_push_queued now (error_entry msg p) l).
    unfold error_entry.
    now destruct (_push now (VArr [VStr "error"; msg; p]) l). }
  destruct c; [|exact Q]. now rewrite queued_close.
Qed.


Section Accounted.

Variable matches : value -> value -> bool.

Lemma invoke_enqueued (c : call) (es : list value) (l : SendListReadable) :
  enqueued c = Some es ->
  exists l', invoke matches c l = Normal l' /\ queued l' = queued l ++ es.
Proof.
  destruct c; simpl; intros E; try discriminate; injection E as <-;
    eexists; (split; [reflexivity|]).
  - apply _push_queued.
  - apply _push_queued.
  - apply _push_queued.
  - apply _push_queued.
  - apply queued_error.
  - rewrite app_nil_r. apply queued_close.
  - rewrite app_nil_r. apply queued_flushed_or_not, timerExpired_cases.
Qed.




End Accounted.

(** ** The hard limit *)


Section Limit.

Variable matches : value -> value -> bool.


End Limit.

(** ** [close] *)

Lemma delivered_ended (cs new : list chunk) :
  ended cs = true -> delivered (cs ++ new) = delivered cs.
Proof.
  induction cs as [|[ops|] cs IH]; simpl; intros H;
    [discriminate | | reflexivity].
  now rewrite IH.
Qed.

Lemma ended_app (cs new : list chunk) :
  ended cs = true -> ended (cs ++ new) = true.
Proof.
  unfold ended. intros H. rewrite existsb_app, H. reflexivity.
Qed.

Lemma close_cases (now : Z) (l : SendListReadable) :
  timerId (close now l) = false
  /\ ((buffer (close now l) = buffer l /\ out (close now l) = out l ++ [EOF])
      \/ (buffer (close now l) = []
          /\ out (close now l) = out l ++ [Batch (buffer l); EOF])).
Proof.
  unfold close, flush, trailingEdge, invokeFunc, func.
  destruct l as [le b w t a lc li o]. simpl.
  destruct t; simpl; [destruct a; simpl|]; split; auto.
  right. split; [reflexivity|]. now rewrite <- app_assoc.
Qed.

Lemma close_scheduled (now : Z) (l : SendListReadable) :
  scheduled l ->
  buffer (close now l) = []
  /\ (buffer l <> [] -> out (close now l) = out l ++ [Batch (buffer l); EOF]).
Proof.
  intros S. unfold close, flush, trailingEdge, invokeFunc, func.
  unfold scheduled in S.
  destruct l as [le b w t a lc li o]. simpl in *.
  destruct b as [|x b].
  - split; [|intros N; now contradiction N].
    destruct t; simpl; [destruct a; simpl|]; reflexivity.
  - destruct S as [-> ->]; [discriminate|]. simpl.
    split; [reflexivity|]. intros _. now rewrite <- app_assoc.
Qed.

Lemma add_not_scheduled (now : Z) (x : value) (l : SendListReadable) :
  buffer l = [] -> timerId l = false ->
  buffer (add now x l) = [VArr [VStr "add"; x]] /\ out (add now x l) = out l.
Proof.
  intros B T. unfold add, _push, debounced, leadingEdge.
  destruct l as [le b w t a lc li o]. simpl in *. subst b t. simpl.
  destruct (shouldInvoke now _); simpl; split; reflexivity.
Qed.

Section Close.

Variable matches : value -> value -> bool.

(** C6 (amended). [close()] hands what is buffered to [this.push] as one
    last batch and then pushes the terminator. After the terminator no
    call delivers anything more to the consumer; a call is not refused,
    though: [add(x)] on a closed object leaves its entry buffered. *)
Theorem close_flushes_then_ends (l : SendListReadable) (now : Z) :
  reachable matches l ->
  (buffer (close now l) = []
   /\ (buffer l <> [] -> out (close now l) = out l ++ [Batch (buffer l); EOF])
   /\ (buffer l = [] ->
       out (close now l) = out l ++ [EOF]
       \/ out (close now l) = out l ++ [Batch []; EOF]))
  /\ ended (out (close now l)) = true
  /\ (forall l0 c l',
        ended (out l0) = true ->
        invoke matches c l0 = Normal l' ->
        delivered (out l') = delivered (out l0) /\ ended (out l') = true)
  /\ (forall now' x,
        buffer (add now' x (close now l)) = [add_entry x]
        /\ out (add now' x (close now l)) = out (close now l)).
Proof.
  intros R. destruct (reachable_inv matches l R) as [S _].
  destruct (close_scheduled now l S) as [B O].
  destruct (close_cases now l) as [T C].
  assert (E : ended (out (close now l)) = true).
  { unfold close. destruct (flush now l). simpl. unfold ended.
    rewrite existsb_app. simpl. now rewrite orb_true_r. }
  split; [|split; [exact E|split]].
  - split; [exact B|]. split; [exact O|].
    intros N. destruct C as [[_ C]|[_ C]]; [now left|].
    right. now rewrite C, N.
  - intros l0 c l' E0 I.
    destruct (nothing_lost_invoke matches c l0 l' I) as (new & _ & O' & _).
    rewrite O'. split; [now apply delivered_ended | now apply ended_app].
  - intros now' x. now apply add_not_scheduled.
Qed.

End Close.

Lemma close_flushes_then_ends_witness :
  out (close 9 (add 5 id1 empty)) = [Batch [add_entry id1]; EOF]
  /\ delivered (out (add 12 id2 (close 9 (add 5 id1 empty)))) = [[add_entry id1]]
  /\ buffer (add 12 id2 (close 9 (add 5 id1 empty))) = [add_entry id2].
Proof.
  destruct (close_flushes_then_ends Lodash.matches (add 5 id1 empty) 9)
    as ((_ & O & _) & E & D & A).
  - apply reach_call with (c := Add 5 id1) (l := empty); [apply reach_new|].
    reflexivity.
  - split; [apply O; discriminate|].
    split; [|apply (A 12%Z id2)].
    destruct (D (close 9 (add 5 id1 empty)) (Add 12 id2) _ E eq_refl) as [D' _].
    rewrite D'. reflexivity.
Defined.

(** [close()] on a new list, then [add({id:1})]: the entry is buffered. *)
Lemma add_after_close_buffered :
  ended (out (close 5 empty)) = true
  /\ buffer (add 6 id1 (close 5 empty)) = [add_entry id1]
  /\ ~ rejects_after_close Lodash.matches (close 5 empty) (Add 6 id1).
Proof.
  split; [reflexivity|]. split; [reflexivity|].
  intros H. destruct (H eq_refl _ eq_refl) as [B _]. discriminate B.
Qed.

(** ** The constructor *)

Lemma _push_first (now : Z) (rec : value) (bufferTime : option Z) :
  _push now rec (fresh bufferTime)
  = mkSendList VUndefined [rec] (wait (fresh bufferTime)) true true
               (Some now) now [].
Proof. reflexivity. Qed.

Lemma _push_waiting (now : Z) (rec le : value) (b : list value) (w lc li : Z)
  (o : list chunk) :
  (Z.of_nat (List.length b) < HARD_LIMIT)%Z ->
  (0 <= now - lc < w)%Z ->
  (now - li < w)%Z ->
  _push now rec (mkSendList le b w true true (Some lc) li o)
  = mkSendList le (b ++ [rec]) w true true (Some now) li o.
Proof.
  intros L C I. unfold _push, debounced, shouldInvoke. simpl.
  rewrite length_app. simpl.
  destruct (Z.ltb_spec HARD_LIMIT (Z.of_nat (List.length b + 1))) as [H|_];
    [lia|].
  destruct (Z.leb_spec w (now - lc)) as [H|_]; [lia|].
  destruct (Z.ltb_spec (now - lc) 0) as [H|_]; [lia|].
  destruct (Z.leb_spec w (now - li)) as [H|_]; [lia|].
  reflexivity.
Qed.

(** C9 (amended). Constructed with [addAtStart = [a, b]], the object has
    enqueued an Add entry for [a], one for [b] and a Ready entry, in that
    order, whatever was flushed on the way. When the three times read in
    the constructor do not decrease and stay within [bufferTime] of the
    first, the three entries are all buffered, nothing has been pushed,
    and the next flush - forced, or by the timer - delivers them as the
    first batch. *)
Theorem seed_then_ready (bufferTime : option Z) (a b : value) (clock : nat -> Z)
  (now : Z) :
  let l := constructor bufferTime (Some [a; b]) clock in
  queued l = [add_entry a; add_entry b; ready_entry]
  /\ ((clock 0%nat <= clock 1%nat <= clock 2%nat)%Z ->
      (clock 2%nat < clock 0%nat + wait (fresh bufferTime))%Z ->
      first_batch_is_seed bufferTime a b clock now
      /\ buffer l = [add_entry a; add_entry b; ready_entry]
      /\ out l = []
      /\ (shouldInvoke now l = true ->
          first_batch (out (timerExpired now l))
          = Some [add_entry a; add_entry b; ready_entry])).
Proof.
  intros l.
  assert (Q : queued l = [add_entry a; add_entry b; ready_entry]).
  { unfold l, constructor, ready. simpl. unfold add.
    now rewrite !_push_queued. }
  split; [exact Q|]. intros M W.
  assert (E : l = mkSendList VUndefined [add_entry a; add_entry b; ready_entry]
                             (wait (fresh bufferTime)) true true
                             (Some (clock 2%nat)) (clock 0%nat) []).
  { unfold l, constructor, ready. cbn [add_each List.length]. unfold add.
    rewrite _push_first.
    rewrite _push_waiting; [|unfold HARD_LIMIT; simpl; lia|lia|lia].
    rewrite _push_waiting; [|unfold HARD_LIMIT; simpl; lia|lia|lia].
    reflexivity. }
  split; [|split; [|split]].
  - split; [exact Q|]. fold l. rewrite E. reflexivity.
  - now rewrite E.
  - now rewrite E.
  - rewrite E. unfold timerExpired. intros ->. reflexivity.
Qed.

Lemma seed_then_ready_witness :
  let l := constructor None (Some [id1; id2]) (fun i => 1000 + Z.of_nat i)%Z in
  buffer l = [add_entry id1; add_entry id2; ready_entry]
  /\ out l = []
  /\ first_batch (out (flush 1300 l))
     = Some [add_entry id1; add_entry id2; ready_entry].
Proof.
  destruct (seed_then_ready None id1 id2 (fun i => 1000 + Z.of_nat i)%Z 1300)
    as (_ & H).
  destruct H as ((_ & F) & B & O & _); [simpl; lia | simpl; lia |].
  exact (conj B (conj O F)).
Defined.

(** With [bufferTime = 1] and the clock reading 1000 at [add(a)], 1001 at
    [add(b)] and at [ready()], the second call of [processBuffer] finds
    that [bufferTime] has elapsed and flushes the two Add entries at once:
    the first batch is [[add a, add b]], the Ready entry comes in the
    next. *)
Lemma seed_split_by_clock :
  let clock := fun i : nat => match i with O => 1000%Z | _ => 1001%Z end in
  out (constructor (Some 1%Z) (Some [id1; id2]) clock)
  = [Batch [add_entry id1; add_entry id2]]
  /\ buffer (constructor (Some 1%Z) (Some [id1; id2]) clock) = [ready_entry]
  /\ ~ first_batch_is_seed (Some 1%Z) id1 id2 clock 1002.
Proof.
  split; [reflexivity|]. split; [reflexivity|].
  intros [_ H]. discriminate H.
Qed.

(** ** A full buffer *)





(** * Properties of [apiMiddleware] *)

Import Api.

Section Dispatcher.

Variable JSON_stringify : value -> option string.
Variable removeStarting : value -> value -> completion value.
Variable engine_text : string.

Local Abbreviation fix_fields := (Api.fix_fields removeStarting).
Local Abbreviation rewritten := (Api.rewritten removeStarting).
Local Abbreviation apiMiddleware :=
  (Api.apiMiddleware JSON_stringify removeStarting engine_text).

Lemma lookup_fix_fields (rev : value) (k : string)
  (fields fs : list (string * value)) :
  String.prefix "uri" k = false ->
  fix_fields rev fields = Normal fs ->
  lookup k fs = lookup k fields.
Proof.
  intros P. revert fs. induction fields as [|[k0 v] fields IH]; intros fs; simpl.
  - intros E. injection E as <-. reflexivity.
  - destruct (fix_entry removeStarting rev k0 v) as [v'|e] eqn:F;
      simpl; [|discriminate].
    destruct (fix_fields rev fields) as [rest|e]; simpl; [|discriminate].
    intros E. injection E as <-. simpl.
    destruct (String.eqb_spec k k0) as [->|_]; [|now apply IH].
    unfold fix_entry in F. rewrite P in F. congruence.
Qed.

Lemma params_csrf_rewritten (ctx : Context) (p : value)
  (fields : list (string * value)) (x : value) :
  rewritten ctx = Normal p ->
  params ctx = VObj fields ->
  lookup "csrf" fields = Some x ->
  params_csrf p = Normal x.
Proof.
  unfold Api.rewritten. intros R P L. rewrite P in R.
  destruct (truthy (revProxyPath ctx)).
  - simpl in R.
    destruct (fix_fields (revProxyPath ctx) fields) as [fs|e] eqn:F;
      simpl in R; [|discriminate].
    injection R as <-. simpl.
    now rewrite (lookup_fix_fields _ "csrf" fields fs eq_refl F), L.
  - injection R as <-. simpl. now rewrite L.
Qed.

Lemma rewritten_logged (log_api : bool) (ctx : Context) :
  rewritten (logged log_api ctx) = rewritten ctx.
Proof. destruct log_api, ctx; reflexivity. Qed.

Lemma is_str_iff (x : value) (c : string) : is_str x c = true <-> x = VStr c.
Proof.
  destruct x; simpl; split; try discriminate.
  - intros H. apply String.eqb_eq in H. now subst.
  - intros H. injection H as ->. apply String.eqb_refl.
Qed.

(** C7 (amended). For a request whose path has a handler and whose
    parameters the reverse-proxy rewriting leaves standing: with a
    non-empty cookie [csrf] and a field [csrf] in the parameters, the
    status is 401 and the handler is not invoked unless the two are the same
    string, and the handler is invoked when they are; it is invoked too
    when there is no cookie [csrf], or an empty one. *)
Theorem csrf_guard (apis : ApiHandlers) (log_api : bool) (ctx : Context)
  (p : value) :
  own apis (path ctx) <> None ->
  rewritten ctx = Normal p ->
  let r := apiMiddleware apis log_api ctx in
  (forall c fields x,
      c <> "" ->
      csrf_checked JSON_stringify removeStarting engine_text
                   apis log_api ctx c fields x)
  /\ (cookie_csrf ctx = None \/ cookie_csrf ctx = Some "" ->
      snd r = Some (params_or_empty p)).
Proof.
  intros O R r.
  assert (L : path (logged log_api ctx) = path ctx
              /\ cookie_csrf (logged log_api ctx) = cookie_csrf ctx)
    by (destruct log_api, ctx; split; reflexivity).
  destruct L as [LP LC].
  destruct (own apis (path ctx)) as [f|] eqn:A; [clear O | now contradiction O].
  assert (called :
    forall b, csrf_mismatch (cookie_csrf ctx) p = Normal b ->
      (b = true -> status (fst r) = Some HTTP_UNAUTHORIZED /\ snd r = None)
      /\ (b = false -> snd r = Some (params_or_empty p))).
  { intros b M. unfold r, Api.apiMiddleware, Api.try_block.
    rewrite LP, A, rewritten_logged, R. cbn [cookie_csrf with_params].
    rewrite LC, M. destruct b; split; try discriminate; intros _.
    - split; reflexivity.
    - destruct (f _ _) as [ctx' [res|res]]; destruct res; reflexivity. }
  split.
  - intros c fields x N _ C P X. fold r.
    pose proof (params_csrf_rewritten ctx p fields x R P X) as PC.
    assert (M : csrf_mismatch (cookie_csrf ctx) p = Normal (negb (is_str x c))).
    { rewrite C. unfold csrf_mismatch. simpl.
      destruct (String.eqb_spec c ""); [contradiction|]. simpl.
      now rewrite PC. }
    destruct (called _ M) as [T F]. split.
    + intros D. apply T. destruct (is_str x c) eqn:I; [|reflexivity].
      apply is_str_iff in I. contradiction.
    + intros E. rewrite F; [discriminate|].
      apply is_str_iff in E. now rewrite E.
  - intros C. apply (called false); [|reflexivity].
    destruct C as [C|C]; rewrite C; reflexivity.
Qed.

(** C8 (amended). Whatever a handler throws (or rejects with) becomes
    [res] and the middleware returns: thrown from a handler that was
    invoked, an [ApiError] gives its status and its message as the body, any
    other instance of [Error] gives status 400 and its message, or its
    string form when the message is empty; a thrown value that is no
    [Error] is treated as if it had been returned (it becomes the body, or
    the stream that is piped). *)
Theorem thrown_errors_mapped (apis : ApiHandlers) (log_api : bool)
  (ctx : Context) (f : ApiHandler) (p : value) (ctx' : Context) (e : result) :
  own apis (path ctx) = Some f ->
  rewritten ctx = Normal p ->
  csrf_mismatch (cookie_csrf ctx) p = Normal false ->
  f (params_or_empty p) (with_params p (logged log_api ctx)) = (ctx', Throws e) ->
  let r := fst (apiMiddleware apis log_api ctx) in
  match e with
  | ApiError st err =>
      status r = Some st /\ body r = Some (VStr (message err))
  | Error err =>
      status r = Some HTTP_BAD_REQUEST
      /\ body r = Some (VStr (if String.eqb (message err) ""
                              then Error_toString err else message err))
  | Data v => body r = Some v /\ status r = status ctx'
  | AsyncGenerator g => piped r = Some (FromGenerator g)
  | Readable s => piped r = Some s
  end.
Proof.
  intros A R M F r.
  assert (L : path (logged log_api ctx) = path ctx
              /\ cookie_csrf (logged log_api ctx) = cookie_csrf ctx)
    by (destruct log_api, ctx; split; reflexivity).
  destruct L as [LP LC].
  unfold r, Api.apiMiddleware, Api.try_block.
  rewrite LP, A, rewritten_logged, R. cbn [cookie_csrf with_params].
  rewrite LC, M.
  rewrite F. destruct e; cbn; try split; reflexivity.
Qed.

End Dispatcher.

Lemma csrf_guard_witness :
  let r := serve in
  (status (fst (r (request (Some "abc") (VObj [("csrf", VStr "xyz")]))))
   = Some HTTP_UNAUTHORIZED
   /\ snd (r (request (Some "abc") (VObj [("csrf", VStr "xyz")]))) = None)
  /\ snd (r (request (Some "abc") (VObj [("csrf", VStr "abc")]))) <> None
  /\ snd (r (request None (VObj [("csrf", VStr "xyz")])))
     = Some (VObj [("csrf", VStr "xyz")]).
Proof.
  intros r. split; [|split].
  - destruct (csrf_guard no_json strip "" (apis (Returns (Data ok))) true
                (request (Some "abc") (VObj [("csrf", VStr "xyz")]))
                (VObj [("csrf", VStr "xyz")])) as [G _];
      [discriminate | reflexivity |].
    apply (G "abc" [("csrf", VStr "xyz")] (VStr "xyz"));
      [discriminate | discriminate | reflexivity | reflexivity | reflexivity
      | discriminate].
  - destruct (csrf_guard no_json strip "" (apis (Returns (Data ok))) true
                (request (Some "abc") (VObj [("csrf", VStr "abc")]))
                (VObj [("csrf", VStr "abc")])) as [G _];
      [discriminate | reflexivity |].
    apply (G "abc" [("csrf", VStr "abc")] (VStr "abc"));
      [discriminate | discriminate | reflexivity | reflexivity | reflexivity
      | reflexivity].
  - destruct (csrf_guard no_json strip "" (apis (Returns (Data ok))) true
                (request None (VObj [("csrf", VStr "xyz")]))
                (VObj [("csrf", VStr "xyz")])) as [_ G];
      [discriminate | reflexivity |].
    apply G. now left.
Defined.

(** A request with the header [Cookie: csrf=] and the parameter
    [csrf=xyz]: the cookie is the empty string, the test is skipped and the
    handler is invoked. *)
Lemma empty_csrf_cookie_passes :
  let r := serve
             (request (Some "") (VObj [("csrf", VStr "xyz")])) in
  snd r = Some (VObj [("csrf", VStr "xyz")])
  /\ status (fst r) = None
  /\ body (fst r) = Some ok
  /\ ~ csrf_checked no_json strip "" (apis (Returns (Data ok))) true
        (request (Some "") (VObj [("csrf", VStr "xyz")]))
        "" [("csrf", VStr "xyz")] (VStr "xyz").
Proof.
  split; [reflexivity|]. split; [reflexivity|]. split; [reflexivity|].
  intros H. destruct H as [H _];
    [discriminate | reflexivity | reflexivity | reflexivity |].
  destruct H as [H _]; [discriminate|]. discriminate H.
Qed.

(** A handler that throws the string ['oops']: it is sent as the body, and
    no status is set. *)
Lemma thrown_string_not_mapped :
  let r := fst (apiMiddleware no_json strip ""
                  (apis (Throws (Data (VStr "oops")))) true
                  (request None (VObj []))) in
  body r = Some (VStr "oops")
  /\ status r = None
  /\ ~ thrown_is_mapped no_json strip "" (apis (Throws (Data (VStr "oops")))) true
        (request None (VObj [])) (fun _ ctx => (ctx, Throws (Data (VStr "oops"))))
        (VObj []) (with_params (VObj []) (request None (VObj [])))
        (Data (VStr "oops")).
Proof.
  split; [reflexivity|]. split; [reflexivity|].
  intros H. destruct (H eq_refl eq_refl eq_refl eq_refl) as [S _].
  discriminate S.
Qed.

Lemma thrown_errors_mapped_witness :
  let forbidden := new_ApiError no_json 403 (OfString "forbidden") in
  let failed := Error (mkError "RangeError" "") in
  let r e := fst (apiMiddleware no_json strip "" (apis (Throws e)) true
                    (request None (VObj []))) in
  (status (r forbidden) = Some 403%Z /\ body (r forbidden) = Some (VStr "forbidden"))
  /\ (status (r failed) = Some 400%Z /\ body (r failed) = Some (VStr "RangeError")).
Proof.
  split.
  - exact (thrown_errors_mapped no_json strip ""
             (apis (Throws (new_ApiError no_json 403 (OfString "forbidden"))))
             true (request None (VObj [])) _ (VObj [])
             (with_params (VObj []) (request None (VObj [])))
             (new_ApiError no_json 403 (OfString "forbidden"))
             eq_refl eq_refl eq_refl eq_refl).
  - exact (thrown_errors_mapped no_json strip ""
             (apis (Throws (Error (mkError "RangeError" ""))))
             true (request None (VObj [])) _ (VObj [])
             (with_params (VObj []) (request None (VObj [])))
             (Error (mkError "RangeError" ""))
             eq_refl eq_refl eq_refl eq_refl).
Defined.

(** * Further properties of [SendListReadable] *)

Import Calls Handlers.

(** ** Calls in sequence *)

Section Sequences.

Variable matches : value -> value -> bool.

(** X1. Calls of [add], [ready], [custom], [props] and [error], with
    [close] and the timer firing at any point between them, all return,
    and what has been handed to [this.push] followed by what is still
    buffered is then what it was before followed by the entries of the
    calls, in the order of the calls: no flush loses, repeats or reorders
    an entry. *)
Theorem enqueued_in_call_order (cs : list call) (l : SendListReadable) :
  Forall (fun c => enqueued c <> None) cs ->
  exists l',
    run matches cs l = Normal l' /\ queued l' = queued l ++ enqueued_all cs.
Proof.
  intros H. revert l. induction H as [|c cs Hc _ IH]; intros l; simpl.
  - exists l. now rewrite app_nil_r.
  - destruct (enqueued c) as [es|] eqn:E; [|now contradiction Hc].
    destruct (invoke_enqueued matches c es l E) as (l1 & I & Q).
    destruct (IH l1) as (l' & R & Q').
    exists l'. rewrite I. simpl. split; [exact R|].
    now rewrite Q', Q, app_assoc.
Qed.

End Sequences.

Lemma enqueued_in_call_order_witness :
  exists l',
    run Lodash.matches
      [Add 5 id1; TimerExpired 300; Props 310 kx;
       SendList.Error 320 330 (VStr "gone") true VUndefined; Add 340 id2]
      empty = Normal l'
    /\ queued l'
       = [add_entry id1; props_entry kx; error_entry (VStr "gone") VUndefined;
          add_entry id2].
Proof.
  apply (enqueued_in_call_order Lodash.matches
           [Add 5 id1; TimerExpired 300; Props 310 kx;
            SendList.Error 320 330 (VStr "gone") true VUndefined; Add 340 id2]
           empty).
  repeat constructor; discriminate.
Defined.

(** ** The constructor, for any seed *)

Lemma queued_add_each (clock : nat -> Z) (xs : list value) (i : nat)
  (l : SendListReadable) :
  queued (add_each clock i xs l) = queued l ++ map add_entry xs.
Proof.
  revert i l. induction xs as [|x xs IH]; intros i l; simpl.
  - now rewrite app_nil_r.
  - rewrite IH. unfold add. rewrite _push_queued. now rewrite <- app_assoc.
Qed.

(** X2. The constructor enqueues one Add entry per element of
    [addAtStart], in the order of the array, and then a Ready entry -
    for an empty array the Ready entry alone - whatever the clock and
    however many elements there are; without [addAtStart] it enqueues
    nothing and schedules no flush. *)
Theorem constructor_seeds_in_order (bufferTime : option Z) (clock : nat -> Z) :
  (forall xs,
      queued (constructor bufferTime (Some xs) clock)
      = map add_entry xs ++ [ready_entry])
  /\ queued (constructor bufferTime None clock) = []
  /\ timerId (constructor bufferTime None clock) = false.
Proof.
  split; [|split; reflexivity].
  intros xs. unfold constructor, ready.
  rewrite _push_queued, queued_add_each. reflexivity.
Qed.

(** ** Entries that are not operations *)

Lemma findIndex_from_throws (p : value -> completion bool) (pre : list value)
  (x : value) (post : list value) (e : exn) (i : Z) :
  Forall (fun y => p y = Normal false) pre ->
  p x = Throw e ->
  findIndex_from p (pre ++ x :: post) i = Throw e.
Proof.
  intros H Hx. revert i. induction H as [|y pre Hy _ IH]; intros i; simpl.
  - now rewrite Hx.
  - rewrite Hy. simpl. apply IH.
Qed.

Lemma test_nullish (matches : value -> value -> bool) (s x : value) :
  nullish x = true -> test_entry matches s x = Throw TypeError.
Proof. destruct x; simpl; intros H; try discriminate; reflexivity. Qed.

Section Entries.

Variable matches : value -> value -> bool.

(** X3. While [null] or [undefined], enqueued by [custom], is buffered
    with no matching entry before it, [remove] throws a [TypeError] and so
    does [update] with a non-empty change; [update] with an empty change
    returns without touching the object. *)
Theorem nullish_entry_throws (l : SendListReadable) (pre : list value)
  (x : value) (post : list value) (now : Z) (s c : value) :
  buffer l = pre ++ x :: post ->
  nullish x = true ->
  unmatched matches s pre ->
  remove matches now s l = Throw TypeError
  /\ (isEmpty c = false -> update matches now s c l = Throw TypeError)
  /\ (isEmpty c = true -> update matches now s c l = Normal l).
Proof.
  intros B N U.
  assert (F : findIndex (buffer l) (test_entry matches s) = Throw TypeError).
  { rewrite B. unfold findIndex.
    apply findIndex_from_throws; [exact U | now apply test_nullish]. }
  unfold remove, update. rewrite F.
  split; [reflexivity|]. split; intros ->; reflexivity.
Qed.



End Entries.

Lemma nullish_entry_throws_witness :
  remove Lodash.matches 6 id1 (custom 5 VNull empty) = Throw TypeError
  /\ update Lodash.matches 6 id1 (VObj n_z) (custom 5 VNull empty)
     = Throw TypeError
  /\ update Lodash.matches 6 id1 (VObj []) (custom 5 VNull empty)
     = Normal (custom 5 VNull empty).
Proof.
  destruct (nullish_entry_throws Lodash.matches (custom 5 VNull empty)
              [] VNull [] 6 id1 (VObj n_z)) as (R & U & _);
    [reflexivity | reflexivity | constructor |].
  destruct (nullish_entry_throws Lodash.matches (custom 5 VNull empty)
              [] VNull [] 6 id1 (VObj [])) as (_ & _ & U');
    [reflexivity | reflexivity | constructor |].
  split; [exact R|]. split; [apply U | apply U']; reflexivity.
Defined.



(** ** [error] and [getLastError] *)

Lemma error_close_scheduled (now now' : Z) (msg p : value)
  (l : SendListReadable) :
  scheduled l ->
  out (error now now' msg true p l)
  = out l ++ [Batch (buffer l ++ [error_entry msg p]); EOF]
  /\ buffer (error now now' msg true p l) = [].
Proof.
  intros S. unfold error, close, _push, flush, debounced, trailingEdge,
    leadingEdge, invokeFunc, func, scheduled in *.
  destruct l as [le b w t a lc li o]. simpl in *.
  destruct (Z.ltb_spec HARD_LIMIT
              (Z.of_nat (List.length (b ++ [VArr [VStr "error"; msg; p]]))))
    as [H|H]; simpl.
  - destruct S as [-> ->].
    { intros E. subst b. unfold HARD_LIMIT in H. simpl in H. lia. }
    simpl. split; [now rewrite <- app_assoc | reflexivity].
  - destruct (shouldInvoke now _); simpl; [destruct t; simpl|];
      (split; [now rewrite <- app_assoc | reflexivity]).
Qed.

Lemma lastError__push (now : Z) (rec : value) (l : SendListReadable) :
  lastError (_push now rec l) = lastError l.
Proof.
  unfold _push, flush, debounced, trailingEdge, leadingEdge, invokeFunc, func.
  destruct l as [le b w t a lc li o]. simpl.
  destruct (HARD_LIMIT <? _)%Z; simpl.
  - destruct t; simpl; [destruct a|]; reflexivity.
  - destruct (shouldInvoke now _); simpl; [destruct t|]; reflexivity.
Qed.

Lemma lastError_timerExpired (now : Z) (l : SendListReadable) :
  lastError (timerExpired now l) = lastError l.
Proof.
  unfold timerExpired, trailingEdge, invokeFunc, func.
  destruct l as [le b w t a lc li o]. simpl.
  destruct (shouldInvoke now _); simpl; [destruct a|]; reflexivity.
Qed.

Lemma lastError_close (now : Z) (l : SendListReadable) :
  lastError (close now l) = lastError l.
Proof.
  unfold close, flush, trailingEdge, invokeFunc, func.
  destruct l as [le b w t a lc li o]. simpl.
  destruct t; simpl; [destruct a|]; reflexivity.
Qed.

Lemma lastError_error (now now' : Z) (msg : value) (c : bool) (p : value)
  (l : SendListReadable) : lastError (error now now' msg c p l) = msg.
Proof.
  unfold error. destruct c; [rewrite lastError_close|];
    now destruct (_push now (VArr [VStr "error"; msg; p]) l).
Qed.

Lemma lastError_add_each (clock : nat -> Z) (xs : list value) (i : nat)
  (l : SendListReadable) :
  lastError (add_each clock i xs l) = lastError l.
Proof.
  revert i l. induction xs as [|x xs IH]; intros i l; simpl; [reflexivity|].
  rewrite IH. apply lastError__push.
Qed.

Section Errors.

Variable matches : value -> value -> bool.

(** X6. [error(msg, true, props)] ends the stream with one last batch:
    everything that was buffered, then the Error entry, and then the
    terminator; nothing is left in the buffer and [getLastError()] returns
    [msg]. *)
Theorem error_closes_with_final_batch (l : SendListReadable) (now now' : Z)
  (msg p : value) :
  reachable matches l ->
  let l' := error now now' msg true p l in
  out l' = out l ++ [Batch (buffer l ++ [error_entry msg p]); EOF]
  /\ buffer l' = []
  /\ getLastError l' = msg.
Proof.
  intros R l'. destruct (reachable_inv matches l R) as [S _].
  destruct (error_close_scheduled now now' msg p l S) as [O B].
  split; [exact O|]. split; [exact B|]. apply lastError_error.
Qed.

(** X7. [getLastError()] returns [undefined] on a new object and, after
    any call, the message of that call if it is a call of [error] and what
    it returned before otherwise: no other method, and no flush, touches
    it. *)
Theorem getLastError_tracks_error :
  (forall bufferTime addAtStart clock,
      getLastError (constructor bufferTime addAtStart clock) = VUndefined)
  /\ (forall c l l',
        invoke matches c l = Normal l' ->
        getLastError l' = last_error_after c (getLastError l)).
Proof.
  split; [|intros c l l' I]; revgoals.
  - unfold getLastError. destruct c; simpl in *.
    + injection I as <-. apply lastError__push.
    + unfold remove in I.
      destruct (findIndex _ _) as [idx|e]; simpl in I; [|discriminate].
      destruct (is_str _ "remove"); [now injection I as <-|].
      destruct (truthy _); simpl in I;
        [destruct (is_str _ "add")|]; injection I as <-;
        rewrite ?lastError__push; now destruct l.
    + unfold update in I.
      destruct (isEmpty change); [now injection I as <-|].
      destruct (findIndex _ _) as [idx|e]; simpl in I; [|discriminate].
      destruct (is_str _ "remove"); [now injection I as <-|].
      destruct (is_str _ "add" || is_str _ "update").
      * destruct (get_index _ _) as [target|e]; simpl in I; [|discriminate].
        destruct (Object_assign target change) as [m|e]; simpl in I;
          [|discriminate].
        injection I as <-. now destruct l.
      * injection I as <-. apply lastError__push.
    + injection I as <-. apply lastError__push.
    + injection I as <-. apply lastError__push.
    + injection I as <-. apply lastError__push.
    + injection I as <-. apply lastError_error.
    + injection I as <-. apply lastError_close.
    + injection I as <-. apply lastError_timerExpired.
  - intros bt xs clock. unfold getLastError, constructor.
    destruct xs as [xs|]; [|reflexivity].
    unfold ready. now rewrite lastError__push, lastError_add_each.
Qed.

End Errors.

Lemma error_closes_with_final_batch_witness :
  out (error 6 7 (VStr "gone") true VUndefined (add 5 id1 empty))
  = [Batch [add_entry id1; error_entry (VStr "gone") VUndefined]; EOF]
  /\ buffer (error 6 7 (VStr "gone") true VUndefined (add 5 id1 empty)) = []
  /\ getLastError (error 6 7 (VStr "gone") true VUndefined (add 5 id1 empty))
     = VStr "gone".
Proof.
  apply (error_closes_with_final_batch Lodash.matches (add 5 id1 empty) 6 7
           (VStr "gone") VUndefined).
  apply reach_call with (c := Add 5 id1) (l := empty); [apply reach_new|].
  reflexivity.
Defined.

(** ** The timer *)

Lemma shouldInvoke_quiet (now : Z) (l : SendListReadable) :
  (forall lc, lastCallTime l = Some lc -> (wait l <= now - lc)%Z) ->
  shouldInvoke now l = true.
Proof.
  unfold shouldInvoke. destruct (lastCallTime l) as [lc|]; [|reflexivity].
  intros H. specialize (H lc eq_refl).
  destruct (Z.leb_spec (wait l) (now - lc)); [reflexivity | lia].
Qed.

Lemma shouldInvoke_max_wait (now : Z) (l : SendListReadable) :
  (wait l <= now - lastInvokeTime l)%Z -> shouldInvoke now l = true.
Proof.
  unfold shouldInvoke. destruct (lastCallTime l) as [lc|]; [|reflexivity].
  intros H.
  destruct (Z.leb_spec (wait l) (now - lastInvokeTime l)); [|lia].
  now rewrite !orb_true_r.
Qed.

Lemma timerExpired_invoking (now : Z) (l : SendListReadable) :
  scheduled l -> buffer l <> [] -> shouldInvoke now l = true ->
  buffer (timerExpired now l) = []
  /\ out (timerExpired now l) = out l ++ [Batch (buffer l)].
Proof.
  intros S N I. destruct (S N) as [T A].
  unfold timerExpired. rewrite I. unfold trailingEdge, invokeFunc, func.
  destruct l as [le b w t a lc li o]. simpl in *. subst. split; reflexivity.
Qed.

Lemma _push_invoking (now : Z) (rec : value) (l : SendListReadable) :
  scheduled l -> buffer l <> [] -> shouldInvoke now l = true ->
  buffer (_push now rec l) = []
  /\ out (_push now rec l) = out l ++ [Batch (buffer l ++ [rec])].
Proof.
  intros S N I. destruct (S N) as [T A].
  unfold _push, flush, debounced, trailingEdge, invokeFunc, func.
  unfold shouldInvoke in *.
  destruct l as [le b w t a lc li o]. simpl in *. subst.
  destruct (HARD_LIMIT <? _)%Z; simpl; [split; reflexivity|].
  rewrite I. simpl. split; reflexivity.
Qed.

Section Timer.

Variable matches : value -> value -> bool.

(** X8. Whatever is buffered is delivered by the timer: as long as an
    entry is buffered the timer is pending; when its callback runs
    [bufferTime] or more after the last call of [processBuffer], it pushes
    the whole buffer as one batch and empties it; when it runs earlier and
    does not flush, it re-arms the timer and leaves the buffer as it is. *)
Theorem timer_flushes_pending (l : SendListReadable) (now : Z) :
  reachable matches l ->
  buffer l <> [] ->
  timerId l = true
  /\ ((forall lc, lastCallTime l = Some lc -> (wait l <= now - lc)%Z) ->
      buffer (timerExpired now l) = []
      /\ out (timerExpired now l) = out l ++ [Batch (buffer l)])
  /\ (shouldInvoke now l = false ->
      buffer (timerExpired now l) = buffer l
      /\ out (timerExpired now l) = out l
      /\ timerId (timerExpired now l) = true).
Proof.
  intros R N. destruct (reachable_inv matches l R) as [S _].
  split; [exact (proj1 (S N))|]. split.
  - intros Q. apply timerExpired_invoking; auto using shouldInvoke_quiet.
  - intros F. unfold timerExpired. rewrite F. now destruct l.
Qed.

(** X9. No entry waits longer than [bufferTime] past the last flush while
    the object is in use: a call that enqueues, or the timer's callback,
    coming [bufferTime] or more after the time of the last flush (or of
    the call that started the timer), pushes everything buffered at once,
    the new entry included. *)
Theorem max_wait_forces_flush (l : SendListReadable) (now : Z) (rec : value) :
  reachable matches l ->
  buffer l <> [] ->
  (wait l <= now - lastInvokeTime l)%Z ->
  (buffer (_push now rec l) = []
   /\ out (_push now rec l) = out l ++ [Batch (buffer l ++ [rec])])
  /\ (buffer (timerExpired now l) = []
      /\ out (timerExpired now l) = out l ++ [Batch (buffer l)]).
Proof.
  intros R N W. destruct (reachable_inv matches l R) as [S _].
  pose proof (shouldInvoke_max_wait now l W) as I. split.
  - now apply _push_invoking.
  - now apply timerExpired_invoking.
Qed.

End Timer.

(** X10. A burst is batched: an enqueue made less than [bufferTime] after
    the previous call of [processBuffer] and after the last flush, the
    clock not having gone back, on a buffer of fewer than 10,000 entries,
    pushes nothing: the entry is appended to the buffer and the timer is
    pending. *)
Theorem burst_is_buffered (l : SendListReadable) (now lc : Z) (rec : value) :
  lastCallTime l = Some lc ->
  (0 <= now - lc < wait l)%Z ->
  (now - lastInvokeTime l < wait l)%Z ->
  (Z.of_nat (List.length (buffer l)) < HARD_LIMIT)%Z ->
  buffer (_push now rec l) = buffer l ++ [rec]
  /\ out (_push now rec l) = out l
  /\ timerId (_push now rec l) = true.
Proof.
  intros C W M L. unfold _push, debounced, shouldInvoke.
  destruct l as [le b w t a lcl li o]. simpl in *. subst lcl.
  rewrite length_app. simpl.
  destruct (Z.ltb_spec HARD_LIMIT (Z.of_nat (List.length b + 1))) as [H|_];
    [lia|].
  destruct (Z.leb_spec w (now - lc)) as [H|_]; [lia|].
  destruct (Z.ltb_spec (now - lc) 0) as [H|_]; [lia|].
  destruct (Z.leb_spec w (now - li)) as [H|_]; [lia|].
  simpl. repeat split.
Qed.

Section Cancelled.

Variable matches : value -> value -> bool.

(** X11. A cancelled pair still costs a batch: on a new object, after
    [add(x)] and a [remove(s)] that cancels it, the buffer is empty but the
    flush stays scheduled, and the timer's callback, [bufferTime] or more
    after the [add], pushes an empty batch. *)
Theorem cancelled_pair_flushes_empty_batch (bufferTime : option Z)
  (now now' t : Z) (x s : value) :
  matches s x = true ->
  (wait (fresh bufferTime) <= t - now)%Z ->
  exists l',
    remove matches now' s (add now x (fresh bufferTime)) = Normal l'
    /\ buffer l' = [] /\ out l' = []
    /\ out (timerExpired t l') = [Batch []].
Proof.
  intros M W.
  exists (set_buffer [] (add now x (fresh bufferTime))).
  split.
  - apply (remove_first_add matches _ [] x [] now' s);
      [reflexivity | constructor | exact M].
  - split; [reflexivity|]. split; [reflexivity|].
    unfold timerExpired, shouldInvoke. simpl.
    destruct (Z.leb_spec
                match bufferTime with
                | Some 0%Z => 200%Z
                | Some t0 => t0
                | None => 200%Z
                end (t - now)) as [_|H].
    + reflexivity.
    + simpl in W. lia.
Qed.

End Cancelled.

Lemma timer_flushes_pending_witness :
  (buffer (timerExpired 205 (add 5 id1 empty)) = []
   /\ out (timerExpired 205 (add 5 id1 empty)) = [Batch [add_entry id1]])
  /\ (buffer (timerExpired 100 (add 90 id2 (add 5 id1 empty)))
      = [add_entry id1; add_entry id2]
      /\ out (timerExpired 100 (add 90 id2 (add 5 id1 empty))) = []
      /\ timerId (timerExpired 100 (add 90 id2 (add 5 id1 empty))) = true).
Proof.
  split.
  - destruct (timer_flushes_pending Lodash.matches (add 5 id1 empty) 205)
      as (_ & F & _).
    + apply reach_call with (c := Add 5 id1) (l := empty); [apply reach_new|].
      reflexivity.
    + discriminate.
    + apply F. intros lc E. injection E as <-. simpl. lia.
  - destruct (timer_flushes_pending Lodash.matches
                (add 90 id2 (add 5 id1 empty)) 100) as (_ & _ & F).
    + apply reach_call with (c := Add 90 id2) (l := add 5 id1 empty);
        [|reflexivity].
      apply reach_call with (c := Add 5 id1) (l := empty); [apply reach_new|].
      reflexivity.
    + discriminate.
    + apply F. reflexivity.
Defined.

Lemma max_wait_forces_flush_witness :
  buffer (add 205 id2 (add 100 id2 (add 5 id1 empty))) = []
  /\ out (add 205 id2 (add 100 id2 (add 5 id1 empty)))
     = [Batch [add_entry id1; add_entry id2; add_entry id2]].
Proof.
  destruct (max_wait_forces_flush Lodash.matches
              (add 100 id2 (add 5 id1 empty)) 205 (add_entry id2)) as [F _].
  - apply reach_call with (c := Add 100 id2) (l := add 5 id1 empty);
      [|reflexivity].
    apply reach_call with (c := Add 5 id1) (l := empty); [apply reach_new|].
    reflexivity.
  - discriminate.
  - simpl. lia.
  - exact F.
Defined.

Lemma burst_is_buffered_witness :
  buffer (add 100 id2 (add 5 id1 empty)) = [add_entry id1; add_entry id2]
  /\ out (add 100 id2 (add 5 id1 empty)) = []
  /\ timerId (add 100 id2 (add 5 id1 empty)) = true.
Proof.
  apply (burst_is_buffered (add 5 id1 empty) 100 5 (add_entry id2));
    [reflexivity | simpl; lia | simpl; lia | unfold HARD_LIMIT; simpl; lia].
Defined.

Lemma cancelled_pair_flushes_empty_batch_witness :
  exists l',
    remove Lodash.matches 6 id1 (add 5 id1_a (fresh None)) = Normal l'
    /\ buffer l' = [] /\ out l' = []
    /\ out (timerExpired 205 l') = [Batch []].
Proof.
  apply (cancelled_pair_flushes_empty_batch Lodash.matches None 5 6 205 id1_a id1);
    [reflexivity | simpl; lia].
Defined.

(** * Further properties of [apiMiddleware] *)

Lemma own_absent (apis : ApiHandlers) (p : string) :
  ~ In p (map fst apis) -> own apis p = None.
Proof.
  induction apis as [|[k f] apis IH]; simpl; intros H; [reflexivity|].
  destruct (String.eqb_spec p k) as [->|_]; [tauto|]. apply IH. tauto.
Qed.

Lemma logged_frame (log_api : bool) (ctx : Context) :
  path (logged log_api ctx) = path ctx
  /\ cookie_csrf (logged log_api ctx) = cookie_csrf ctx
  /\ params (logged log_api ctx) = params ctx
  /\ revProxyPath (logged log_api ctx) = revProxyPath ctx
  /\ body (logged log_api ctx) = body ctx
  /\ status (logged log_api ctx) = status ctx
  /\ piped (logged log_api ctx) = piped ctx
  /\ dont_log (logged log_api ctx) = (negb log_api || dont_log ctx)%bool.
Proof. destruct log_api, ctx; repeat split. Qed.

Section More.

Variable JSON_stringify : value -> option string.
Variable removeStarting : value -> value -> completion value.
Variable engine_text : string.

Local Abbreviation fix_entry := (Api.fix_entry removeStarting).
Local Abbreviation fix_each := (Api.fix_each removeStarting).
Local Abbreviation fix_fields := (Api.fix_fields removeStarting).
Local Abbreviation fix_params := (Api.fix_params removeStarting).
Local Abbreviation rewritten := (Api.rewritten removeStarting).
Local Abbreviation apiMiddleware :=
  (Api.apiMiddleware JSON_stringify removeStarting engine_text).

(** X12. A path that is not exactly a key of the handlers gets status 404
    and the body ['invalid api'], whatever the cookie and the parameters
    are (missing ones included): no handler is invoked, nothing is piped,
    and [dont_log] is set when [log_api] is off. *)
Theorem unknown_path_not_found (apis : ApiHandlers) (log_api : bool)
  (ctx : Context) :
  ~ In (path ctx) (map fst apis) ->
  let r := apiMiddleware apis log_api ctx in
  status (fst r) = Some HTTP_NOT_FOUND
  /\ body (fst r) = Some (VStr "invalid api")
  /\ snd r = None
  /\ piped (fst r) = piped ctx
  /\ dont_log (fst r) = (negb log_api || dont_log ctx)%bool.
Proof.
  intros H r. unfold r, Api.apiMiddleware.
  destruct (logged_frame log_api ctx) as (P & _ & _ & _ & _ & _ & Pi & D).
  rewrite P, (own_absent apis (path ctx) H). simpl.
  repeat split; assumption.
Qed.

(** X13. The response does not tell a thrown value from a returned one: a
    handler that throws what another returns gets the same response, so a
    returned [ApiError] sets the status like a thrown one. *)
Theorem thrown_like_returned (apis apis' : ApiHandlers) (log_api : bool)
  (ctx : Context) (f : ApiHandler) :
  own apis (path ctx) = Some f ->
  own apis' (path ctx) = Some (thrown_instead f) ->
  apiMiddleware apis' log_api ctx = apiMiddleware apis log_api ctx.
Proof.
  intros A A'. unfold Api.apiMiddleware, Api.try_block.
  destruct (logged_frame log_api ctx) as (P & _).
  rewrite P, A, A'.
  destruct (Api.rewritten removeStarting (logged log_api ctx)) as [p|e];
    [|reflexivity].
  destruct (csrf_mismatch _ p) as [[|]|e]; try reflexivity.
  unfold thrown_instead.
  destruct (f _ _) as [ctx' [r|r]]; reflexivity.
Qed.

(** X14. Without a parameter object ([params] is [undefined] or [null]): a
    request behind a reverse proxy, or one with a non-empty cookie [csrf],
    fails on reading [params] - status 400, the text of the [TypeError]
    as the body, the handler not invoked; any other request reaches the
    handler, with the empty object. *)
Theorem missing_params (apis : ApiHandlers) (log_api : bool) (ctx : Context) :
  own apis (path ctx) <> None ->
  nullish (params ctx) = true ->
  let r := apiMiddleware apis log_api ctx in
  (truthy (revProxyPath ctx) = true
   \/ (exists c, cookie_csrf ctx = Some c /\ c <> "") ->
   status (fst r) = Some HTTP_BAD_REQUEST
   /\ body (fst r) = Some (VStr (error_text (mkError "TypeError" engine_text)))
   /\ snd r = None)
  /\ (truthy (revProxyPath ctx) = false ->
      cookie_csrf ctx = None \/ cookie_csrf ctx = Some "" ->
      snd r = Some (VObj [])).
Proof.
  intros O N r. unfold r, Api.apiMiddleware, Api.try_block, Api.rewritten.
  destruct (logged_frame log_api ctx) as (P & C & Pa & Rv & _).
  rewrite P, Rv, Pa.
  destruct (own apis (path ctx)) as [f|]; [clear O | now contradiction O].
  split.
  - intros H. destruct (truthy (revProxyPath ctx)) eqn:T.
    + destruct (params ctx); try discriminate; simpl; repeat split.
    + destruct H as [H|(c & E & Nc)]; [discriminate|].
      cbn [cookie_csrf with_params]. rewrite C, E. unfold csrf_mismatch. simpl.
      destruct (String.eqb_spec c ""); [contradiction|]. simpl.
      destruct (params ctx); try discriminate; simpl; repeat split.
  - intros T H. rewrite T. cbn [cookie_csrf with_params]. rewrite C.
    assert (M : csrf_mismatch (cookie_csrf ctx) (params ctx) = Normal false)
      by (destruct H as [-> | ->]; reflexivity).
    rewrite M.
    assert (E : params_or_empty (params ctx) = VObj [])
      by (destruct (params ctx); try discriminate; reflexivity).
    rewrite E.
    destruct (f _ _) as [ctx' [res|res]]; destruct res; reflexivity.
Qed.

Lemma fix_fields_keys (rev : value) (fields fs : list (string * value)) :
  fix_fields rev fields = Normal fs -> map fst fs = map fst fields.
Proof.
  revert fs. induction fields as [|[k v] fields IH]; intros fs; simpl.
  - intros E. now injection E as <-.
  - destruct (fix_entry rev k v) as [v'|e]; simpl; [|discriminate].
    destruct (fix_fields rev fields) as [rest|e]; simpl; [|discriminate].
    intros E. injection E as <-. simpl. f_equal. now apply IH.
Qed.

Lemma fix_fields_uri (rev : value) (k : string) (v : value)
  (fields fs : list (string * value)) :
  fix_fields rev fields = Normal fs ->
  lookup k fields = Some v ->
  exists v', lookup k fs = Some v' /\ fix_entry rev k v = Normal v'.
Proof.
  revert fs. induction fields as [|[k0 v0] fields IH]; intros fs; simpl;
    [discriminate|].
  destruct (fix_entry rev k0 v0) as [v'|e] eqn:F; simpl; [|discriminate].
  destruct (fix_fields rev fields) as [rest|e]; simpl; [|discriminate].
  intros E. injection E as <-. simpl.
  destruct (String.eqb_spec k k0) as [->|_]; [|now apply IH].
  intros L. injection L as <-. now exists v'.
Qed.

Lemma fix_each_pointwise (rev : value) (items ys : list value) :
  fix_each rev items = Normal ys ->
  Forall2 (fun x y => removeStarting rev x = Normal y) items ys.
Proof.
  revert ys. induction items as [|x items IH]; intros ys; simpl.
  - intros E. injection E as <-. constructor.
  - destruct (removeStarting rev x) as [y|e] eqn:R; simpl; [|discriminate].
    destruct (fix_each rev items) as [rest|e]; simpl; [|discriminate].
    intros E. injection E as <-. constructor; [exact R | now apply IH].
Qed.

(** X15. The rewriting behind a reverse proxy keeps the keys of [params]
    and their order, and leaves alone the value of every key that does
    not start with [uri]; with [revProxyPath] unset it does not run. *)
Theorem rewriting_keeps_other_params (ctx : Context) (p : value)
  (fields : list (string * value)) :
  rewritten ctx = Normal p ->
  params ctx = VObj fields ->
  (exists fs,
     p = VObj fs
     /\ map fst fs = map fst fields
     /\ forall k, String.prefix "uri" k = false -> lookup k fs = lookup k fields)
  /\ (truthy (revProxyPath ctx) = false -> p = params ctx).
Proof.
  unfold Api.rewritten. intros R P. rewrite P in *.
  destruct (truthy (revProxyPath ctx)).
  - simpl in R.
    destruct (fix_fields (revProxyPath ctx) fields) as [fs|e] eqn:F;
      simpl in R; [|discriminate].
    injection R as <-. split; [|discriminate].
    exists fs. split; [reflexivity|].
    split; [exact (fix_fields_keys _ _ _ F)|].
    intros k K. exact (lookup_fix_fields removeStarting _ k _ _ K F).
  - injection R as <-. split; [|reflexivity].
    exists fields. auto.
Qed.

(** X16. Behind a reverse proxy, of a parameter whose key starts with
    [uri]: a string is replaced by what [removeStarting] makes of it; an
    array whose first element is a string has every element replaced, in
    place, by what [removeStarting] makes of it; any other value - an
    empty array, an array that starts with a number - stays. *)
Theorem rewriting_of_uri_params (ctx : Context) (p : value)
  (fields : list (string * value)) (k : string) (v : value) :
  truthy (revProxyPath ctx) = true ->
  rewritten ctx = Normal p ->
  params ctx = VObj fields ->
  String.prefix "uri" k = true ->
  lookup k fields = Some v ->
  exists fs v',
    p = VObj fs /\ lookup k fs = Some v'
    /\ match v with
       | VStr _ => removeStarting (revProxyPath ctx) v = Normal v'
       | VArr (VStr s :: rest) =>
           exists ys,
             v' = VArr ys
             /\ Forall2 (fun x y => removeStarting (revProxyPath ctx) x = Normal y)
                        (VStr s :: rest) ys
       | _ => v' = v
       end.
Proof.
  unfold Api.rewritten. intros T R P K L. rewrite T, P in R. simpl in R.
  destruct (fix_fields (revProxyPath ctx) fields) as [fs|e] eqn:F;
    simpl in R; [|discriminate].
  injection R as <-.
  destruct (fix_fields_uri _ k v fields fs F L) as (v' & L' & E).
  exists fs, v'. split; [reflexivity|]. split; [exact L'|].
  unfold Api.fix_entry in E. rewrite K in E.
  destruct v as [| | | | s | items | o]; try (now injection E as <-).
  - exact E.
  - destruct items as [|[| | | | s | |] rest]; try (now injection E as <-).
    destruct (fix_each (revProxyPath ctx) (VStr s :: rest)) as [ys|e] eqn:FE;
      simpl in E; [|discriminate].
    injection E as <-. exists ys. split; [reflexivity|].
    now apply fix_each_pointwise.
  - destruct (lookup "0" o) as [[| | | | s | |]|]; try discriminate;
      now injection E as <-.
Qed.

Lemma fix_fields_throws (rev : value) (k : string) (o : list (string * value))
  (s : string) (fields : list (string * value)) :
  In (k, VObj o) fields ->
  String.prefix "uri" k = true ->
  lookup "0" o = Some (VStr s) ->
  exists e, fix_fields rev fields = Throw e.
Proof.
  intros I K Z. induction fields as [|[k0 v0] fields IH]; [contradiction|].
  simpl. destruct (fix_entry rev k0 v0) as [v'|e] eqn:F; simpl; [|now exists e].
  destruct I as [E|I].
  - injection E as -> ->. unfold Api.fix_entry in F. rewrite K, Z in F.
    discriminate.
  - destruct (IH I) as (e & ->). now exists e.
Qed.

(** X17. Behind a reverse proxy, a parameter whose key starts with [uri]
    and whose value is an object with a string at key [0] (array-like, but
    no array) stops the request: status 400, the text of the error as the
    body, neither the CSRF test nor the handler is reached. *)
Theorem uri_object_param_rejected (apis : ApiHandlers) (log_api : bool)
  (ctx : Context) (fields : list (string * value)) (k : string)
  (o : list (string * value)) (s : string) :
  own apis (path ctx) <> None ->
  truthy (revProxyPath ctx) = true ->
  params ctx = VObj fields ->
  In (k, VObj o) fields ->
  String.prefix "uri" k = true ->
  lookup "0" o = Some (VStr s) ->
  let r := apiMiddleware apis log_api ctx in
  status (fst r) = Some HTTP_BAD_REQUEST
  /\ body (fst r) = Some (VStr (error_text (mkError "TypeError" engine_text)))
  /\ snd r = None.
Proof.
  intros O T P I K Z r. unfold r, Api.apiMiddleware, Api.try_block, Api.rewritten.
  destruct (logged_frame log_api ctx) as (Pt & _ & Pa & Rv & _).
  rewrite Pt, Rv, Pa, T, P.
  destruct (own apis (path ctx)) as [f|]; [clear O | now contradiction O].
  simpl.
  destruct (fix_fields_throws (revProxyPath ctx) k o s fields I K Z) as (e & ->).
  simpl. repeat split.
Qed.

(** X18. With a non-empty cookie [csrf], whatever [params.csrf] reads that
    is not that very string - no field [csrf], a number, parameters that
    are no object - gives status 401 with the body ['csrf'], and the
    handler is not invoked. *)
Theorem csrf_required_with_cookie (apis : ApiHandlers) (log_api : bool)
  (ctx : Context) (p : value) (c : string) (x : value) :
  own apis (path ctx) <> None ->
  rewritten ctx = Normal p ->
  cookie_csrf ctx = Some c ->
  c <> "" ->
  params_csrf p = Normal x ->
  x <> VStr c ->
  let r := apiMiddleware apis log_api ctx in
  status (fst r) = Some HTTP_UNAUTHORIZED
  /\ body (fst r) = Some (VStr "csrf")
  /\ snd r = None.
Proof.
  intros O R C N X D r. unfold r, Api.apiMiddleware, Api.try_block.
  destruct (logged_frame log_api ctx) as (Pt & Ck & _).
  rewrite Pt, rewritten_logged, R.
  destruct (own apis (path ctx)) as [f|]; [clear O | now contradiction O].
  cbn [cookie_csrf with_params]. rewrite Ck, C. unfold csrf_mismatch. simpl.
  destruct (String.eqb_spec c ""); [contradiction|]. simpl. rewrite X. simpl.
  destruct (is_str x c) eqn:I; [apply is_str_iff in I; contradiction|].
  simpl. repeat split.
Qed.

(** X19. A handler that is invoked and ends with [new ApiError(status,
    message)], thrown or returned, gets that status and, as the body, the
    message itself if it is a string, the message of [message] if it is an
    [Error], and otherwise its JSON text - the empty string when it has
    none, as for [undefined]. *)
Theorem api_error_response (apis : ApiHandlers) (log_api : bool)
  (ctx : Context) (f : ApiHandler) (p : value) (ctx' : Context) (o : outcome)
  (st : Z) (m : message_arg) :
  own apis (path ctx) = Some f ->
  rewritten ctx = Normal p ->
  csrf_mismatch (cookie_csrf ctx) p = Normal false ->
  f (params_or_empty p) (with_params p (logged log_api ctx)) = (ctx', o) ->
  o = Returns (new_ApiError JSON_stringify st m)
  \/ o = Throws (new_ApiError JSON_stringify st m) ->
  let r := fst (apiMiddleware apis log_api ctx) in
  status r = Some st
  /\ body r
     = Some (VStr match m with
                  | OfString s => s
                  | OfError e => message e
                  | OfOther v =>
                      match JSON_stringify v with
                      | Some s => s
                      | None => ""
                      end
                  end).
Proof.
  intros A R M F H r. unfold r, Api.apiMiddleware, Api.try_block.
  destruct (logged_frame log_api ctx) as (Pt & Ck & _).
  rewrite Pt, A, rewritten_logged, R. cbn [cookie_csrf with_params].
  rewrite Ck, M, F.
  destruct H as [-> | ->]; split; reflexivity.
Qed.

(** X20. What a handler returns that is no error: a plain value becomes
    the body, and the middleware assigns no status and pipes nothing; a
    stream is piped, and a generator is piped as the stream made from it,
    with neither body nor status assigned. The handler was given the
    rewritten parameters, or the empty object in their place when they are
    falsy. *)
Theorem returned_value_response (apis : ApiHandlers) (log_api : bool)
  (ctx : Context) (f : ApiHandler) (p : value) (ctx' : Context) (res : result) :
  own apis (path ctx) = Some f ->
  rewritten ctx = Normal p ->
  csrf_mismatch (cookie_csrf ctx) p = Normal false ->
  f (params_or_empty p) (with_params p (logged log_api ctx))
  = (ctx', Returns res) ->
  let r := apiMiddleware apis log_api ctx in
  snd r = Some (params_or_empty p)
  /\ match res with
     | Data v =>
         body (fst r) = Some v
         /\ status (fst r) = status ctx' /\ piped (fst r) = piped ctx'
     | Readable s =>
         piped (fst r) = Some s
         /\ body (fst r) = body ctx' /\ status (fst r) = status ctx'
     | AsyncGenerator g =>
         piped (fst r) = Some (FromGenerator g)
         /\ body (fst r) = body ctx' /\ status (fst r) = status ctx'
     | ApiError st e =>
         status (fst r) = Some st /\ body (fst r) = Some (VStr (message e))
     | Error e =>
         status (fst r) = Some HTTP_BAD_REQUEST
         /\ body (fst r) = Some (VStr (error_text e))
     end.
Proof.
  intros A R M F r. unfold r, Api.apiMiddleware, Api.try_block.
  destruct (logged_frame log_api ctx) as (Pt & Ck & _).
  rewrite Pt, A, rewritten_logged, R. cbn [cookie_csrf with_params].
  rewrite Ck, M, F.
  destruct res; destruct ctx'; repeat split.
Qed.

End More.

Lemma unknown_path_not_found_witness :
  let r := serve (mkContext "/api/nope" (Some "abc") VUndefined VUndefined
                            false None None None) in
  status (fst r) = Some 404%Z
  /\ body (fst r) = Some (VStr "invalid api")
  /\ snd r = None.
Proof.
  destruct (unknown_path_not_found no_json strip "" (apis (Returns (Data ok))) true
              (mkContext "/api/nope" (Some "abc") VUndefined VUndefined
                         false None None None)) as (S & B & C & _).
  - simpl. intros [H|[]]. discriminate H.
  - exact (conj S (conj B C)).
Defined.

Lemma thrown_like_returned_witness :
  let denied := ApiError 403 (mkError "Error" "forbidden") in
  apiMiddleware no_json strip ""
    [("/api/get", thrown_instead (fun _ ctx => (ctx, Returns denied)))] true
    (request None (VObj []))
  = apiMiddleware no_json strip "" (apis (Returns denied)) true
      (request None (VObj [])).
Proof.
  exact (thrown_like_returned no_json strip ""
           (apis (Returns (ApiError 403 (mkError "Error" "forbidden"))))
           [("/api/get",
             thrown_instead
               (fun _ ctx =>
                  (ctx, Returns (ApiError 403 (mkError "Error" "forbidden")))))]
           true (request None (VObj [])) _ eq_refl eq_refl).
Defined.

Lemma missing_params_witness :
  (status (fst (serve (request (Some "abc") VUndefined))) = Some 400%Z
   /\ body (fst (serve (request (Some "abc") VUndefined))) = Some (VStr "TypeError")
   /\ snd (serve (request (Some "abc") VUndefined)) = None)
  /\ snd (serve (request None VUndefined)) = Some (VObj []).
Proof.
  split.
  - destruct (missing_params no_json strip "" (apis (Returns (Data ok))) true
                (request (Some "abc") VUndefined)) as [F _];
      [discriminate | reflexivity |].
    apply F. right. exists "abc". split; [reflexivity | discriminate].
  - destruct (missing_params no_json strip "" (apis (Returns (Data ok))) true
                (request None VUndefined)) as [_ F];
      [discriminate | reflexivity |].
    apply F; [reflexivity | now left].
Defined.

Lemma rewriting_keeps_other_params_witness :
  exists fs,
    rewritten strip (proxied None (VObj uri_params)) = Normal (VObj fs)
    /\ map fst fs = ["uri"; "csrf"; "uris"]
    /\ lookup "csrf" fs = Some (VStr "t").
Proof.
  destruct (rewriting_keeps_other_params strip (proxied None (VObj uri_params))
              (VObj [("uri", VStr "/a"); ("csrf", VStr "t");
                     ("uris", VArr [VStr "/b"; VStr "/c"])])
              uri_params eq_refl eq_refl) as ((fs & E & K & L) & _).
  exists fs. split; [now rewrite <- E|]. split; [exact K|].
  now rewrite (L "csrf" eq_refl).
Defined.

Lemma rewriting_of_uri_params_witness :
  exists fs v',
    rewritten strip (proxied None (VObj uri_params)) = Normal (VObj fs)
    /\ lookup "uris" fs = Some v'
    /\ exists ys,
         v' = VArr ys
         /\ Forall2 (fun x y => strip (VStr "/hfs") x = Normal y)
                    [VStr "/hfs/b"; VStr "/c"] ys.
Proof.
  destruct (rewriting_of_uri_params strip (proxied None (VObj uri_params))
              (VObj [("uri", VStr "/a"); ("csrf", VStr "t");
                     ("uris", VArr [VStr "/b"; VStr "/c"])])
              uri_params "uris" (VArr [VStr "/hfs/b"; VStr "/c"])
              eq_refl eq_refl eq_refl eq_refl eq_refl) as (fs & v' & E & L & H).
  exists fs, v'. split; [now rewrite <- E|]. split; [exact L | exact H].
Defined.

Lemma uri_object_param_rejected_witness :
  let r := serve (proxied None (VObj [("uri", VObj [("0", VStr "/hfs/a")])])) in
  status (fst r) = Some 400%Z
  /\ body (fst r) = Some (VStr "TypeError")
  /\ snd r = None.
Proof.
  apply (uri_object_param_rejected no_json strip "" (apis (Returns (Data ok))) true
           (proxied None (VObj [("uri", VObj [("0", VStr "/hfs/a")])]))
           [("uri", VObj [("0", VStr "/hfs/a")])] "uri" [("0", VStr "/hfs/a")]
           "/hfs/a");
    [discriminate | reflexivity | reflexivity | now left | reflexivity
    | reflexivity].
Defined.

Lemma csrf_required_with_cookie_witness :
  let r := serve (request (Some "abc") (VObj [("name", VStr "x")])) in
  status (fst r) = Some 401%Z
  /\ body (fst r) = Some (VStr "csrf")
  /\ snd r = None.
Proof.
  apply (csrf_required_with_cookie no_json strip "" (apis (Returns (Data ok))) true
           (request (Some "abc") (VObj [("name", VStr "x")]))
           (VObj [("name", VStr "x")]) "abc" VUndefined);
    [discriminate | reflexivity | reflexivity | discriminate | reflexivity
    | discriminate].
Defined.

Lemma api_error_response_witness :
  let inner := mkError "RangeError" "too far" in
  let r := fst (apiMiddleware no_json strip ""
                  (apis (Returns (new_ApiError no_json 416 (OfError inner)))) true
                  (request None (VObj []))) in
  status r = Some 416%Z /\ body r = Some (VStr "too far").
Proof.
  exact (api_error_response no_json strip ""
           (apis (Returns (new_ApiError no_json 416
                             (OfError (mkError "RangeError" "too far")))))
           true (request None (VObj [])) _ (VObj [])
           (with_params (VObj []) (request None (VObj [])))
           (Returns (new_ApiError no_json 416
                       (OfError (mkError "RangeError" "too far"))))
           416%Z (OfError (mkError "RangeError" "too far"))
           eq_refl eq_refl eq_refl eq_refl (or_introl eq_refl)).
Defined.

Lemma returned_value_response_witness :
  let r := serve (request (Some "abc") (VObj [("csrf", VStr "abc")])) in
  snd r = Some (VObj [("csrf", VStr "abc")])
  /\ body (fst r) = Some ok
  /\ status (fst r) = None
  /\ piped (fst r) = None.
Proof.
  exact (returned_value_response no_json strip "" (apis (Returns (Data ok))) true
           (request (Some "abc") (VObj [("csrf", VStr "abc")])) _
           (VObj [("csrf", VStr "abc")])
           (with_params (VObj [("csrf", VStr "abc")])
              (request (Some "abc") (VObj [("csrf", VStr "abc")])))
           (Data ok) eq_refl eq_refl eq_refl eq_refl).
Defined.
